(** * Verification of the cerf shell: expansion, parsing, execution engine,
    job table and directory built-ins.

    Shallow embedding of the Rust sources under src/src.  Rust [String]s are
    modelled as Rocq [string]s (ASCII characters); the character classes used
    by the code ([is_ascii_alphabetic], [is_ascii_alphanumeric]) only concern
    ASCII characters.  [HashMap]s are modelled as stdpp [gmap]s. *)

From Stdlib Require Import String Ascii List Sorting.Sorted Sorting.Permutation Lia ZArith.
From stdpp Require Import base gmap strings list.
Import ListNotations.

Open Scope string_scope.

(* ===================================================================== *)
(** ** Character classes (Rust [char] methods) *)
(* ===================================================================== *)

Module Chars.

(** [char::is_ascii_alphabetic] *)
Definition is_ascii_alphabetic (c : ascii) : bool :=
  let n := nat_of_ascii c in
  (Nat.leb 65 n && Nat.leb n 90) || (Nat.leb 97 n && Nat.leb n 122).

(** [char::is_ascii_digit] *)
Definition is_ascii_digit (c : ascii) : bool :=
  let n := nat_of_ascii c in Nat.leb 48 n && Nat.leb n 57.

(** [char::is_ascii_alphanumeric] *)
Definition is_ascii_alphanumeric (c : ascii) : bool :=
  is_ascii_alphabetic c || is_ascii_digit c.

Definition ascii_eqb (a b : ascii) : bool :=
  if ascii_dec a b then true else false.

End Chars.

Import Chars.

(* ===================================================================== *)
(** ** src/src/parser/expand.rs : [expand_vars] *)
(* ===================================================================== *)

Module Expand.

(** [chars.by_ref().take_while(|&c| c != '}')]: collects the characters
    before the first ['}'] and also consumes that ['}'] (take_while pulls the
    terminating element out of the iterator); without a ['}'] it consumes the
    rest of the input. *)
Fixpoint take_until_brace (s : string) : string * string :=
  match s with
  | EmptyString => (EmptyString, EmptyString)
  | String c rest =>
      if ascii_eqb c "}"%char then (EmptyString, rest)
      else let '(name, r) := take_until_brace rest in (String c name, r)
  end.

(** [std::iter::from_fn(|| chars.next_if(|c| c.is_ascii_alphanumeric() || *c == '_'))]:
    the maximal prefix of identifier characters; the first other character
    is only peeked, not consumed. *)
Fixpoint take_ident (s : string) : string * string :=
  match s with
  | EmptyString => (EmptyString, EmptyString)
  | String c rest =>
      if is_ascii_alphanumeric c || ascii_eqb c "_"%char then
        let '(name, r) := take_ident rest in (String c name, r)
      else (EmptyString, s)
  end.

(** [chars.peek()] and [chars.next()] on the remaining input. *)
Definition chars_peek (s : string) : option ascii :=
  match s with EmptyString => None | String c _ => Some c end.

Definition chars_skip (s : string) : string :=
  match s with EmptyString => EmptyString | String _ r => r end.

(** [shell_vars.get(&var_name).cloned().unwrap_or_default()] *)
Definition get_var (shell_vars : gmap string string) (name : string) : string :=
  match shell_vars !! name with
  | Some v => v
  | None => EmptyString
  end.

(** The [while let Some(ch) = chars.next()] loop.  [fuel] bounds the number
    of iterations; every iteration consumes at least one character, so
    [String.length input] iterations suffice (lemma [go_fuel]). *)
Fixpoint go (fuel : nat) (shell_vars : gmap string string) (s : string) : string :=
  match fuel with
  | O => EmptyString
  | S f =>
    match s with
    | EmptyString => EmptyString
    | String ch rest =>
        if negb (ascii_eqb ch "$"%char) then String ch (go f shell_vars rest)
        else
          match chars_peek rest with
          | Some c =>
              if ascii_eqb c "$"%char then
                (* $$ -> literal $ *)
                String "$"%char (go f shell_vars (chars_skip rest))
              else if ascii_eqb c "{"%char then
                (* ${VAR} *)
                let '(var_name, r) := take_until_brace (chars_skip rest) in
                append (get_var shell_vars var_name) (go f shell_vars r)
              else if is_ascii_alphabetic c || ascii_eqb c "_"%char then
                (* $VAR *)
                let '(tail, r) := take_ident (chars_skip rest) in
                append (get_var shell_vars (String c tail)) (go f shell_vars r)
              else
                (* bare $ : kept, next character not consumed *)
                String "$"%char (go f shell_vars rest)
          | None => String "$"%char (go f shell_vars rest)
          end
    end
  end.

Definition expand_vars (input : string) (shell_vars : gmap string string) : string :=
  go (String.length input) shell_vars input.

(** Strings without any [$] character. *)
Fixpoint no_dollar (s : string) : bool :=
  match s with
  | EmptyString => true
  | String c r => negb (ascii_eqb c "$"%char) && no_dollar r
  end.

(** [X] matches [[A-Za-z_][A-Za-z0-9_]*]. *)
Definition ident_char (c : ascii) : bool :=
  is_ascii_alphanumeric c || ascii_eqb c "_"%char.

Fixpoint all_ident_chars (s : string) : bool :=
  match s with
  | EmptyString => true
  | String c r => ident_char c && all_ident_chars r
  end.

Definition is_identifier (s : string) : bool :=
  match s with
  | EmptyString => false
  | String c r => (is_ascii_alphabetic c || ascii_eqb c "_"%char) && all_ident_chars r
  end.


End Expand.

(* ===================================================================== *)
(** ** src/src/parser/ast.rs (with the [background] flag and the [Amp]
    connector that the execution engine and the connector parser use) *)
(* ===================================================================== *)

Module Ast.

Record Arg := mkArg { value : string; quoted : bool }.

Inductive RedirectKind := StdoutOverwrite | StdoutAppend | StdinFrom.

Record Redirect := mkRedirect { kind : RedirectKind; file : string }.

Record ParsedCommand := mkCommand {
  assignments : list (string * string);
  name : option string;
  args : list Arg;
  redirects : list Redirect
}.

Record Pipeline := mkPipeline {
  commands : list ParsedCommand;
  negated : bool;
  background : bool
}.

Inductive Connector := Semi | And | Or | Amp.

Record CommandEntry := mkEntry {
  connector : option Connector;
  pipeline : Pipeline
}.

End Ast.

(* ===================================================================== *)
(** ** src/src/engine/glob.rs : [expand_globs] *)
(* ===================================================================== *)

Module Glob.
Import Ast.

(** [s.contains(c)] *)
Fixpoint contains (s : string) (c : ascii) : bool :=
  match s with
  | EmptyString => false
  | String d r => ascii_eqb d c || contains r c
  end.

(** [contains_glob_chars] *)
Definition contains_glob_chars (s : string) : bool :=
  contains s "*"%char || contains s "?"%char || contains s "["%char.

(** [Vec<String>::sort]: the order of [String] is the lexicographic order of
    its bytes, which on ASCII strings is [String.leb].  The sort is written
    as an insertion sort; any sort yields the same list for a total order. *)
Fixpoint insert_sorted (x : string) (l : list string) : list string :=
  match l with
  | [] => [x]
  | y :: l' => if String.leb x y then x :: l else y :: insert_sorted x l'
  end.

Fixpoint sort (l : list string) : list string :=
  match l with
  | [] => []
  | x :: l' => insert_sorted x (sort l')
  end.

(** [paths.filter_map(|entry| entry.ok()).map(to_string_lossy)] *)
Fixpoint filter_ok (entries : list (option string)) : list string :=
  match entries with
  | [] => []
  | Some p :: r => p :: filter_ok r
  | None :: r => filter_ok r
  end.

Section ExpandGlobs.

(** The [glob] crate against the file system: [glob pattern] is [None] when
    [glob::glob] returns [Err] (invalid pattern), and otherwise the entries
    it yields, an entry being [None] when iterating it returned an error. *)
Variable glob : string -> option (list (option string)).

(** The body of the [for arg in args] loop: what one argument contributes. *)
Definition expand_arg (arg : Arg) : list string :=
  if quoted arg || negb (contains_glob_chars (value arg)) then [value arg]
  else
    match glob (value arg) with
    | Some paths =>
        match filter_ok paths with
        | [] => [value arg]
        | matches => sort matches
        end
    | None => [value arg]
    end.

Fixpoint expand_globs_acc (args : list Arg) (expanded : list string) : list string :=
  match args with
  | [] => expanded
  | arg :: rest => expand_globs_acc rest (expanded ++ expand_arg arg)
  end.

Definition expand_globs (args : list Arg) : list string := expand_globs_acc args [].

End ExpandGlobs.

End Glob.

(* ===================================================================== *)
(** ** src/src/engine/state.rs : jobs and their derived state *)
(* ===================================================================== *)

Module Jobs.

Inductive JobState := Running | Stopped | Done (code : Z).

Record ProcessInfo := mkProcess { pid : nat; pname : string; pstate : JobState }.

Record Job := mkJob {
  id : nat;
  pgid : nat;
  command : string;
  processes : list ProcessInfo;
  reported_done : bool
}.

Definition is_suspended (s : JobState) : bool :=
  match s with Stopped | Done _ => true | Running => false end.

Definition is_stopped_state (s : JobState) : bool :=
  match s with Stopped => true | _ => false end.

Definition is_done_state (s : JobState) : bool :=
  match s with Done _ => true | _ => false end.

(** [Job::is_stopped] *)
Definition is_stopped (j : Job) : bool :=
  let all_suspended := forallb (fun p => is_suspended (pstate p)) (processes j) in
  let any_stopped := existsb (fun p => is_stopped_state (pstate p)) (processes j) in
  all_suspended && any_stopped.

(** [Job::is_done] *)
Definition is_done (j : Job) : bool :=
  forallb (fun p => is_done_state (pstate p)) (processes j).

(** [Vec::last] *)
Fixpoint vec_last {A} (l : list A) : option A :=
  match l with
  | [] => None
  | [x] => Some x
  | _ :: r => vec_last r
  end.

(** [Job::state] *)
Definition state (j : Job) : JobState :=
  if is_done j then
    let code := match vec_last (processes j) with
                | Some p => match pstate p with Done c => c | _ => 0%Z end
                | None => 0%Z
                end in
    Done code
  else if is_stopped j then Stopped
  else Running.

End Jobs.

(* ===================================================================== *)
(** ** src/src/engine : alias expansion, redirects, job control, execution *)
(* ===================================================================== *)

Module Engine.
Import Ast Jobs.

(** The part of [ShellState] the execution engine reads and writes. *)
Record ShellState := mkShell {
  variables : gmap string string;
  aliases : gmap string string;
  jobs : gmap nat Job;
  next_job_id : nat
}.

Inductive ExecutionResult := KeepRunning | Exit.

(** What [waitpid] reports (POSIX build). [WOther] stands for the results
    the code ignores ([_ => {}]), e.g. an interrupted call. *)
Inductive WaitStatus :=
  | WExited (p : nat) (code : Z)
  | WSignaled (p : nat) (sig : Z)
  | WStopped (p : nat)
  | WContinued (p : nat)
  | WOther.

(** The shell together with the operating system it talks to:
    [wait_queue] is the sequence of statuses that successive blocking
    [waitpid] calls report ([ECHILD] once it is empty); [next_pid] is the pid
    of the next spawned child.  [job_log] is ghost state, not in the source:
    for every job the engine registers, its id and whether the job table
    already had an entry under that id at that moment. *)
Record World := mkWorld {
  shell : ShellState;
  wait_queue : list WaitStatus;
  next_pid : nat;
  job_log : list (nat * bool)
}.

Definition set_shell (w : World) (s : ShellState) : World :=
  mkWorld s (wait_queue w) (next_pid w) (job_log w).

Definition set_jobs (w : World) (js : gmap nat Job) : World :=
  let s := shell w in
  set_shell w (mkShell (variables s) (aliases s) js (next_job_id s)).

(** *** alias.rs *)

(** [shell_split]: whitespace split honouring single quotes.  [current] is
    the token being built, [tokens] the finished ones. *)
Fixpoint shell_split_loop (s : string) (in_single : bool) (current : string)
    (tokens : list string) : list string :=
  match s with
  | EmptyString =>
      if String.eqb current EmptyString then tokens else tokens ++ [current]
  | String ch rest =>
      if ascii_eqb ch "'"%char then
        shell_split_loop rest (negb in_single) current tokens
      else if (ascii_eqb ch " "%char || ascii_eqb ch (ascii_of_nat 9)) && negb in_single then
        if String.eqb current EmptyString then shell_split_loop rest in_single current tokens
        else shell_split_loop rest in_single EmptyString (tokens ++ [current])
      else shell_split_loop rest in_single (append current (String ch EmptyString)) tokens
  end.

Definition shell_split (s : string) : list string := shell_split_loop s false EmptyString [].

(** [expand_alias].  The source prepends the alias tokens ([Vec<String>])
    to the [Arg] list; they are modelled as unquoted arguments. *)
Definition expand_alias (cmd : ParsedCommand) (als : gmap string string) : ParsedCommand :=
  match name cmd with
  | None => cmd
  | Some n =>
      match als !! n with
      | None => cmd
      | Some v =>
          match shell_split v with
          | [] => cmd
          | t0 :: ts =>
              mkCommand (assignments cmd) (Some t0)
                (map (fun t => mkArg t false) ts ++ args cmd) (redirects cmd)
          end
      end
  end.

(** *** redirect.rs *)

(** [iter().rfind(pred)] *)
Fixpoint rfind {A} (f : A -> bool) (l : list A) : option A :=
  match l with
  | [] => None
  | x :: r => match rfind f r with Some y => Some y | None => if f x then Some x else None end
  end.

Definition is_stdin_kind (r : Redirect) : bool :=
  match kind r with StdinFrom => true | _ => false end.

Definition is_stdout_kind (r : Redirect) : bool :=
  match kind r with StdoutOverwrite | StdoutAppend => true | StdinFrom => false end.

(** [resolve_redirects] *)
Definition resolve_redirects (rs : list Redirect) : option Redirect * option Redirect :=
  (rfind is_stdin_kind rs, rfind is_stdout_kind rs).

(** *** job_control.rs *)

Definition set_pstate (p : nat) (new_state : JobState) (pr : ProcessInfo) : ProcessInfo :=
  if Nat.eqb (pid pr) p then mkProcess (pid pr) (pname pr) new_state else pr.

Definition map_processes (f : ProcessInfo -> ProcessInfo) (j : Job) : Job :=
  mkJob (id j) (pgid j) (command j) (map f (processes j)) (reported_done j).

(** [update_pid_state]: every process with that pid, in every job. *)
Definition update_pid_state (w : World) (p : nat) (new_state : JobState) : World :=
  set_jobs w (map_processes (set_pstate p new_state) <$> jobs (shell w)).

(** [waitpid(-1, WUNTRACED)]: [None] is [Err(ECHILD)]. *)
Definition waitpid (w : World) : option (WaitStatus * World) :=
  match wait_queue w with
  | [] => None
  | st :: rest => Some (st, mkWorld (shell w) rest (next_pid w) (job_log w))
  end.

Definition apply_status (w : World) (st : WaitStatus) : World :=
  match st with
  | WExited p code => update_pid_state w p (Done code)
  | WSignaled p sig => update_pid_state w p (Done (128 + sig)%Z)
  | WStopped p => update_pid_state w p Stopped
  | WContinued p => update_pid_state w p Running
  | WOther => w
  end.

(** The [ECHILD] arm: the job's running processes become [Done(last_code)]. *)
Definition mark_running_done (w : World) (job_id : nat) (last_code : Z) : World :=
  set_jobs w (alter (map_processes (fun pr =>
                 match pstate pr with
                 | Running => mkProcess (pid pr) (pname pr) (Done last_code)
                 | _ => pr
                 end)) job_id (jobs (shell w))).

(** The [loop] of [wait_for_job] (POSIX).  [fuel] bounds the number of
    [waitpid] calls; [wait_for_job] gives one more than the statuses queued,
    which covers the final [ECHILD] after which no process is running. *)
Fixpoint wait_loop (fuel : nat) (job_id : nat) (fg : bool) (last_code : Z) (w : World)
    : Z * World :=
  match jobs (shell w) !! job_id with
  | None => (last_code, w)
  | Some job =>
      if is_stopped job then (last_code, w)
      else if is_done job then
        let last_code := match state job with Done c => c | _ => last_code end in
        (last_code, if fg then set_jobs w (delete job_id (jobs (shell w))) else w)
      else if negb fg then (last_code, w)
      else
        match fuel with
        | O => (last_code, w)
        | S f =>
            match waitpid w with
            | Some (st, w') => wait_loop f job_id fg last_code (apply_status w' st)
            | None => wait_loop f job_id fg last_code (mark_running_done w job_id last_code)
            end
        end
  end.

(** [wait_for_job] (POSIX); terminal hand-over is not modelled. *)
Definition wait_for_job (job_id : nat) (w : World) (fg : bool) : Z * World :=
  if fg && negb (bool_decide (is_Some (jobs (shell w) !! job_id))) then (0%Z, w)
  else wait_loop (S (length (wait_queue w))) job_id fg 0%Z w.

(** [update_jobs] (POSIX): [ready] statuses are available to the
    non-blocking [waitpid]; then every done job is reported and removed. *)
Fixpoint drain (ready : nat) (w : World) : World :=
  match ready with
  | O => w
  | S r => match waitpid w with
           | Some (st, w') => drain r (apply_status w' st)
           | None => w
           end
  end.

Definition update_jobs (ready : nat) (w : World) : World :=
  let w := drain ready w in
  set_jobs w (filter (fun kv => negb (is_done kv.2)) (jobs (shell w))).

(** [format_command] *)
Definition format_cmd (c : ParsedCommand) : string :=
  String.concat " " ((match name c with Some n => [n] | None => [] end)
                     ++ map value (args c)).

Definition format_command (p : Pipeline) : string :=
  append (String.concat " | " (map format_cmd (commands p)))
         (if background p then " &" else "").

(** [state.jobs.insert(job_id, job); state.next_job_id += 1] (job ids are
    [usize]; they are modelled as [nat], without the wrap-around at 2^64). *)
Definition register_job (p : Pipeline) (leader : nat) (procs : list ProcessInfo) (w : World)
    : nat * World :=
  let s := shell w in
  let job_id := next_job_id s in
  let job := mkJob job_id leader (format_command p) procs false in
  (job_id,
   mkWorld (mkShell (variables s) (aliases s) (<[job_id := job]> (jobs s)) (S job_id))
           (wait_queue w) (next_pid w)
           (job_log w ++ [(job_id, bool_decide (is_Some (jobs s !! job_id)))])).

(** *** execution.rs *)

Section Execution.

(** [expand_globs] against the file system (see [Glob]). *)
Variable glob : string -> option (list (option string)).
(** [builtins::registry::find_command(name).is_some()] *)
Variable is_builtin : string -> bool.
(** [(cmd_info.run)(&args, state)] of a built-in (not modelled here). *)
Variable run_builtin : string -> list string -> World -> ExecutionResult * Z * World.
(** Whether [open_stdin_redirect] / [open_stdout_redirect] succeed. *)
Variable open_ok : Redirect -> bool.
(** Whether [command.spawn()] succeeds for a command name (after
    [find_executable]/[expand_home] resolution). *)
Variable spawn_ok : string -> bool.

Definition open_redirect (r : option Redirect) : bool :=
  match r with Some redir => open_ok redir | None => true end.

(** [for (key, val) in &cmd.assignments { state.variables.insert(..) }]
    (the mirror into the OS environment is not modelled). *)
Definition apply_assignments (w : World) (asg : list (string * string)) : World :=
  let s := shell w in
  set_shell w (mkShell (fold_left (fun vs kv => <[kv.1 := kv.2]> vs) asg (variables s))
                       (aliases s) (jobs s) (next_job_id s)).

Definition redirecting_builtin (n : string) : bool :=
  String.eqb n "pwd" || String.eqb n "help" || String.eqb n "echo" || String.eqb n "type".

(** [execute_simple]: [cmd] is [pipeline.commands[0]]. *)
Definition execute_simple (p : Pipeline) (cmd : ParsedCommand) (w : World)
    : ExecutionResult * Z * World :=
  let '(stdin_redir, stdout_redir) := resolve_redirects (redirects cmd) in
  match name cmd with
  | None =>
      let w1 := apply_assignments w (assignments cmd) in
      if negb (open_redirect stdin_redir) then (KeepRunning, 1%Z, w1)
      else if negb (open_redirect stdout_redir) then (KeepRunning, 1%Z, w1)
      else (KeepRunning, 0%Z, w1)
  | Some n =>
      let args := Glob.expand_globs glob (args cmd) in
      if is_builtin n then
        if redirecting_builtin n && negb (open_redirect stdout_redir) then
          (KeepRunning, 1%Z, w)
        else run_builtin n args w
      else if negb (open_redirect stdin_redir) then (KeepRunning, 1%Z, w)
      else if negb (open_redirect stdout_redir) then (KeepRunning, 1%Z, w)
      else if spawn_ok n then
        let child := next_pid w in
        let w1 := mkWorld (shell w) (wait_queue w) (S child) (job_log w) in
        let '(job_id, w2) := register_job p child [mkProcess child n Running] w1 in
        if background p then (KeepRunning, 0%Z, w2)
        else let '(code, w3) := wait_for_job job_id w2 true in (KeepRunning, code, w3)
      else (KeepRunning, 127%Z, w)
  end.

(** Outcome of the spawning loop of a multi-command pipeline. *)
Inductive SpawnOutcome :=
  | Spawned (first_pgid : nat) (procs : list ProcessInfo) (w : World)
  | Aborted (r : ExecutionResult) (code : Z) (w : World).

(** [for (i, cmd) in cmds.iter().enumerate()] *)
Fixpoint spawn_loop (i last_idx : nat) (cmds : list ParsedCommand) (first_pgid : nat)
    (procs : list ProcessInfo) (w : World) : SpawnOutcome :=
  match cmds with
  | [] => Spawned first_pgid procs w
  | cmd :: rest =>
      match name cmd with
      | None => spawn_loop (S i) last_idx rest first_pgid procs w
      | Some n =>
          if String.eqb n "exit" then Aborted Exit 0%Z w
          else
            let '(stdin_redir, stdout_redir) := resolve_redirects (redirects cmd) in
            if Nat.eqb i 0 && negb (open_redirect stdin_redir) then Aborted KeepRunning 1%Z w
            else if Nat.eqb i last_idx && negb (open_redirect stdout_redir) then
              Aborted KeepRunning 1%Z w
            else if spawn_ok n then
              let child := next_pid w in
              let first_pgid := if Nat.eqb i 0 then child else first_pgid in
              spawn_loop (S i) last_idx rest first_pgid (procs ++ [mkProcess child n Running])
                (mkWorld (shell w) (wait_queue w) (S child) (job_log w))
            else Aborted KeepRunning 127%Z w
      end
  end.

Definition negate (negated : bool) (code : Z) : Z :=
  if negated then (if Z.eqb code 0 then 1%Z else 0%Z) else code.

(** [execute].  For an empty command list (never produced by the parser)
    [cmds.len() - 1] is modelled as [0]. *)
Definition execute (pipeline0 : Pipeline) (w : World) : ExecutionResult * Z * World :=
  let als := aliases (shell w) in
  let p := mkPipeline (map (fun c => expand_alias c als) (commands pipeline0))
                      (negated pipeline0) (background pipeline0) in
  match commands p with
  | [cmd] =>
      let '(res, code, w') := execute_simple p cmd w in (res, negate (negated p) code, w')
  | cmds =>
      match spawn_loop 0 (length cmds - 1) cmds 0 [] w with
      | Aborted r code w' => (r, code, w')
      | Spawned first_pgid procs w1 =>
          let '(job_id, w2) := register_job p first_pgid procs w1 in
          let '(last_code, w3) :=
            if background p then (0%Z, w2) else wait_for_job job_id w2 true in
          (KeepRunning, negate (negated p) last_code, w3)
      end
  end.

(** The [skip] computed by [execute_list] from the connector. *)
Definition skip_entry (c : option Connector) (last_code : Z) : bool :=
  match c with
  | None => false
  | Some Semi => false
  | Some And => negb (Z.eqb last_code 0)
  | Some Or => Z.eqb last_code 0
  | Some Amp => false
  end.

Fixpoint execute_entries (last_code : Z) (entries : list CommandEntry) (w : World)
    : ExecutionResult * World :=
  match entries with
  | [] => (KeepRunning, w)
  | entry :: rest =>
      if skip_entry (connector entry) last_code then execute_entries last_code rest w
      else
        let '(result, code, w') := execute (pipeline entry) w in
        match result with
        | Exit => (Exit, w')
        | KeepRunning => execute_entries code rest w'
        end
  end.

(** [execute_list] *)
Definition execute_list (entries : list CommandEntry) (w : World) : ExecutionResult * World :=
  execute_entries 0%Z entries w.

End Execution.

End Engine.

(* ===================================================================== *)
(** ** src/src/parser : the nom parser (combinators.rs) and [parse_input]
    (mod.rs) *)
(* ===================================================================== *)

Module Parser.
Import Ast.

(** A nom parser on complete input: [None] is an [Err], [Some (rest, x)] an
    [Ok]. *)
Definition PResult (A : Type) := option (string * A).

Fixpoint mem_char (c : ascii) (set : string) : bool :=
  match set with
  | EmptyString => false
  | String d r => ascii_eqb c d || mem_char c r
  end.

(** [is_not(set)]: the longest non-empty prefix without characters of [set]. *)
Fixpoint take_not (set : string) (s : string) : string * string :=
  match s with
  | EmptyString => (EmptyString, EmptyString)
  | String c r =>
      if mem_char c set then (EmptyString, s)
      else let '(p, rest) := take_not set r in (String c p, rest)
  end.

Definition is_not (set : string) (s : string) : PResult string :=
  let '(p, rest) := take_not set s in
  if String.eqb p EmptyString then None else Some (rest, p).

(** [char(c)] *)
Definition pchar (c : ascii) (s : string) : PResult ascii :=
  match s with
  | String d r => if ascii_eqb c d then Some (r, c) else None
  | EmptyString => None
  end.

(** [tag(t)] *)
Definition tag (t : string) (s : string) : PResult string :=
  if String.prefix t s then Some (substring (String.length t) (String.length s) s, t)
  else None.

Definition tab : ascii := ascii_of_nat 9.
Definition dquote : ascii := ascii_of_nat 34.
Definition lf : ascii := ascii_of_nat 10.
Definition cr : ascii := ascii_of_nat 13.

(** [multispace0] / [multispace1]: spaces, tabs, carriage returns, newlines. *)
Definition multispace_set : string := String " " (String tab (String cr (String lf EmptyString))).

(** The longest prefix made of characters of [set]. *)
Fixpoint take_in (set : string) (s : string) : string * string :=
  match s with
  | EmptyString => (EmptyString, EmptyString)
  | String c r =>
      if mem_char c set then let '(p, rest) := take_in set r in (String c p, rest)
      else (EmptyString, s)
  end.

Definition multispace0 (s : string) : PResult string :=
  let '(p, rest) := take_in multispace_set s in Some (rest, p).

Definition multispace1 (s : string) : PResult string :=
  let '(p, rest) := take_in multispace_set s in
  if String.eqb p EmptyString then None else Some (rest, p).

(** [char::is_whitespace] on ASCII: tab, newline, vertical tab, form feed,
    carriage return, space. *)
Definition is_whitespace (c : ascii) : bool :=
  let n := nat_of_ascii c in (Nat.leb 9 n && Nat.leb n 13) || Nat.eqb n 32.

Fixpoint trim_start (s : string) : string :=
  match s with
  | String c r => if is_whitespace c then trim_start r else s
  | EmptyString => EmptyString
  end.

Definition rev_string (s : string) : string :=
  string_of_list_ascii (rev (list_ascii_of_string s)).

(** [str::trim] *)
Definition trim (s : string) : string := rev_string (trim_start (rev_string (trim_start s))).

Definition starts_with_char (s : string) (c : ascii) : bool :=
  match s with String d _ => ascii_eqb d c | EmptyString => false end.

(** A raw segment: its text and whether it came from quotes. *)
Definition Segment := (string * bool)%type.

(** [delimited(char(q), is_not(q), char(q))] *)
Definition parse_quoted (q : ascii) (s : string) : PResult Segment :=
  match pchar q s with
  | None => None
  | Some (s1, _) =>
      match is_not (String q EmptyString) s1 with
      | None => None
      | Some (s2, content) =>
          match pchar q s2 with
          | None => None
          | Some (s3, _) => Some (s3, (content, true))
          end
      end
  end.

Definition parse_double_quoted (s : string) : PResult Segment := parse_quoted dquote s.
Definition parse_single_quoted (s : string) : PResult Segment := parse_quoted "'"%char s.

(** The stop set of [parse_unquoted]: space, tab, CR, LF, double and single
    quote, semicolon, ampersand, space, bar, greater-than, less-than. *)
Definition unquoted_stop : string :=
  String " " (String tab (String cr (String lf (String dquote
    (String "'" (String ";" (String "&" (String " " (String "|" (String ">" (String "<" EmptyString))))))))))).

Definition parse_unquoted (s : string) : PResult Segment :=
  match is_not unquoted_stop s with
  | None => None
  | Some (rest, content) => Some (rest, (content, false))
  end.

(** [alt((parse_double_quoted, parse_single_quoted, parse_unquoted))] *)
Definition parse_segment (s : string) : PResult Segment :=
  match parse_double_quoted s with
  | Some r => Some r
  | None => match parse_single_quoted s with
            | Some r => Some r
            | None => parse_unquoted s
            end
  end.

(** The greedy loop of [parse_arg] over further adjacent segments; every
    segment is non-empty, so [String.length] iterations suffice. *)
Fixpoint segments_loop (fuel : nat) (rest : string) (value : string) (count : nat)
    : string * string * nat :=
  match fuel with
  | O => (rest, value, count)
  | S f =>
      match parse_segment rest with
      | Some (after, seg) => segments_loop f after (append value seg.1) (S count)
      | None => (rest, value, count)
      end
  end.

(** [parse_arg] *)
Definition parse_arg (s : string) : PResult Arg :=
  match parse_segment s with
  | None => None
  | Some (rest, first) =>
      let '(rest', value, segment_count) := segments_loop (String.length rest) rest first.1 1 in
      Some (rest', mkArg value (Nat.eqb segment_count 1 && first.2))
  end.

Definition parse_word (s : string) : PResult string :=
  match parse_arg s with Some (rest, a) => Some (rest, value a) | None => None end.

(** [parse_redirect] *)
Definition parse_redirect (s : string) : PResult Redirect :=
  match multispace0 s with
  | None => None
  | Some (s1, _) =>
      let k := match tag ">>" s1 with
               | Some (r, _) => Some (r, StdoutAppend)
               | None => match pchar ">"%char s1 with
                         | Some (r, _) => Some (r, StdoutOverwrite)
                         | None => match pchar "<"%char s1 with
                                   | Some (r, _) => Some (r, StdinFrom)
                                   | None => None
                                   end
                         end
               end in
      match k with
      | None => None
      | Some (s2, kd) =>
          match multispace0 s2 with
          | None => None
          | Some (s3, _) =>
              match parse_word s3 with
              | None => None
              | Some (s4, f) => Some (s4, mkRedirect kd f)
              end
          end
      end
  end.

(** The stop set of [parse_assignment]: that of [parse_unquoted] and [=]. *)
Definition assign_stop : string := append unquoted_stop "=".

(** [parse_assignment] *)
Definition parse_assignment (s : string) : PResult (string * string) :=
  match is_not assign_stop s with
  | None => None
  | Some (s1, nm) =>
      match pchar "="%char s1 with
      | None => None
      | Some (s2, _) =>
          match parse_word s2 with
          | Some (rest, v) => Some (rest, (nm, v))
          | None => Some (s2, (nm, EmptyString))
          end
      end
  end.

Fixpoint assignments_loop (fuel : nat) (rest : string) (acc : list (string * string))
    : string * list (string * string) :=
  match fuel with
  | O => (rest, acc)
  | S f =>
      match parse_assignment rest with
      | Some (after_assign, a) =>
          match multispace0 after_assign with
          | Some (after_space, _) => assignments_loop f after_space (acc ++ [a])
          | None => (rest, acc)
          end
      | None => (rest, acc)
      end
  end.

(** The argument/redirect loop of [parse_single_command]. *)
Fixpoint words_loop (fuel : nat) (rest : string) (args : list Arg) (redirs : list Redirect)
    : string * list Arg * list Redirect :=
  match fuel with
  | O => (rest, args, redirs)
  | S f =>
      match parse_redirect rest with
      | Some (after_redir, r) => words_loop f after_redir args (redirs ++ [r])
      | None =>
          match multispace1 rest with
          | Some (s1, _) =>
              match parse_arg s1 with
              | Some (after_arg, a) => words_loop f after_arg (args ++ [a]) redirs
              | None => (rest, args, redirs)
              end
          | None => (rest, args, redirs)
          end
      end
  end.

(** [parse_single_command] *)
Definition parse_single_command (s : string) : PResult ParsedCommand :=
  match multispace0 s with
  | None => None
  | Some (rest0, _) =>
      let '(rest1, asg) := assignments_loop (String.length rest0) rest0 [] in
      let nm := match parse_arg rest1 with
                | Some (after, n) => Some (after, Some (value n))
                | None => match asg with [] => None | _ => Some (rest1, None) end
                end in
      match nm with
      | None => None
      | Some (rest2, n) =>
          let '(rest3, args, redirs) := words_loop (String.length rest2) rest2 [] [] in
          match multispace0 rest3 with
          | None => None
          | Some (rest4, _) => Some (rest4, mkCommand asg n args redirs)
          end
      end
  end.

Definition skip1 (s : string) : string :=
  match s with EmptyString => EmptyString | String _ r => r end.

Fixpoint pipe_loop (fuel : nat) (rest : string) (cmds : list ParsedCommand)
    : string * list ParsedCommand :=
  match fuel with
  | O => (rest, cmds)
  | S f =>
      let trimmed := trim_start rest in
      if starts_with_char trimmed "|"%char && negb (String.prefix "||" trimmed) then
        match parse_single_command (skip1 trimmed) with
        | Some (after_cmd, c) => pipe_loop f after_cmd (cmds ++ [c])
        | None => (rest, cmds)
        end
      else (rest, cmds)
  end.

(** [parse_pipeline_expr] *)
Definition parse_pipeline_expr (s : string) : PResult Pipeline :=
  match multispace0 s with
  | None => None
  | Some (input, _) =>
      let '(rest, negated) :=
        match input with
        | String "!"%char after_bang =>
            match after_bang with
            | EmptyString => (after_bang, true)
            | String c _ => if is_whitespace c then (after_bang, true) else (input, false)
            end
        | _ => (input, false)
        end in
      match parse_single_command rest with
      | None => None
      | Some (rest1, first) =>
          let '(rest2, cmds) := pipe_loop (String.length rest1) rest1 [first] in
          Some (rest2, mkPipeline cmds negated false)
      end
  end.

(** [parse_connector] *)
Definition parse_connector (s : string) : PResult Connector :=
  match multispace0 s with
  | None => None
  | Some (s1, _) =>
      match tag "&&" s1 with
      | Some (r, _) => Some (r, And)
      | None =>
          match tag "||" s1 with
          | Some (r, _) => Some (r, Or)
          | None =>
              match pchar ";"%char s1 with
              | Some (r, _) => Some (r, Semi)
              | None => match pchar "&"%char s1 with
                        | Some (r, _) => Some (r, Amp)
                        | None => None
                        end
              end
          end
      end
  end.

Fixpoint entries_loop (fuel : nat) (rest : string) (entries : list CommandEntry)
    : list CommandEntry :=
  match fuel with
  | O => entries
  | S f =>
      if String.eqb (trim rest) EmptyString then entries
      else
        match parse_connector rest with
        | None => entries
        | Some (after_conn, conn) =>
            match parse_pipeline_expr after_conn with
            | None => entries
            | Some (after_pipeline, p) =>
                entries_loop f after_pipeline (entries ++ [mkEntry (Some conn) p])
            end
        end
  end.

Section ParseInput.

(** Modelled from the spec: [expand_env_vars], which parser/mod.rs calls
    but which is missing from parser/expand.rs (it defines [expand_vars]);
    the spec (4.2, step 1) gives it the rules of [expand_vars] over the
    shell variables, so it is modelled by [Expand.expand_vars]. *)
Variable shell_vars : gmap string string.

Definition expand_env_vars (input : string) : string := Expand.expand_vars input shell_vars.

(** [parse_input] *)
Definition parse_input (input : string) : option (list CommandEntry) :=
  let trimmed := trim input in
  if String.eqb trimmed EmptyString || starts_with_char trimmed "#"%char then None
  else
    let s := trim (expand_env_vars input) in
    match parse_pipeline_expr s with
    | None => None
    | Some (after_first, first_pipeline) =>
        let entries := entries_loop (String.length after_first) after_first
                         [mkEntry None first_pipeline] in
        match entries with [] => None | _ => Some entries end
    end.

End ParseInput.

End Parser.

(* ===================================================================== *)
(** ** src/src/engine/path.rs, src/src/builtins/cd.rs, src/src/builtins/dirs.rs *)
(* ===================================================================== *)

Module Dirs.
Local Open Scope list_scope.

(** A [PathBuf] as the sequence of its components (POSIX: no prefixes). *)
Inductive Component := RootDir | CurDir | ParentDir | Normal (s : string).

Definition Path := list Component.

(** Splitting at ['/'], dropping empty pieces. *)
Fixpoint split_slash (s : string) (cur : string) : list string :=
  match s with
  | EmptyString => if String.eqb cur EmptyString then [] else [cur]
  | String c r =>
      if ascii_eqb c "/"%char then
        (if String.eqb cur EmptyString then [] else [cur]) ++ split_slash r EmptyString
      else split_slash r (append cur (String c EmptyString))
  end.

Definition piece_component (p : string) : list Component :=
  if String.eqb p "." then [] else if String.eqb p ".." then [ParentDir] else [Normal p].

(** [Path::new(s).components()] on POSIX: a leading [/] gives [RootDir]; a
    leading [.] of a relative path gives [CurDir]; other [.] and empty
    pieces are skipped. *)
Definition components (s : string) : Path :=
  let rooted := match s with String "/"%char _ => true | _ => false end in
  let pieces := split_slash s EmptyString in
  let lead := match pieces with
              | p :: _ => if negb rooted && String.eqb p "." then [CurDir] else []
              | [] => []
              end in
  ((if rooted then [RootDir] else []) ++ lead ++ flat_map piece_component pieces)%list.

(** [PathBuf::push] of one component: a root replaces the path. *)
Definition push (p : Path) (c : Component) : Path :=
  match c with RootDir => [RootDir] | _ => p ++ [c] end.

Fixpoint normalize_loop (cs : list Component) (normalized : Path) : Path :=
  match cs with
  | [] => normalized
  | c :: rest =>
      match c with
      | CurDir => normalize_loop rest normalized
      | ParentDir =>
          match Jobs.vec_last normalized with
          | Some (Normal _) => normalize_loop rest (removelast normalized)
          | Some RootDir => normalize_loop rest normalized
          | _ => normalize_loop rest (push normalized ParentDir)
          end
      | _ => normalize_loop rest (push normalized c)
      end
  end.

(** [normalize_path] *)
Definition normalize_path (p : Path) : Path :=
  match normalize_loop p [] with
  | [] => [CurDir]
  | n => n
  end.

(** [home.join(rest)]: an absolute [rest] replaces [home]. *)
Definition join (home : Path) (rest : string) : Path :=
  match components rest with
  | RootDir :: _ => components rest
  | cs => home ++ List.filter (fun c => match c with CurDir => false | _ => true end) cs
  end.

(** [expand_home]; [home] is [dirs::home_dir()]. *)
Definition expand_home (home : option Path) (path_str : string) : Path :=
  if String.eqb path_str "~" then
    match home with Some h => h | None => normalize_path (components path_str) end
  else if String.prefix "~/" path_str || String.prefix "~\" path_str then
    match home with
    | Some h => normalize_path (join h (substring 2 (String.length path_str) path_str))
    | None => normalize_path (components path_str)
    end
  else normalize_path (components path_str).

(** The part of [ShellState] the directory built-ins use. *)
Record DirState := mkDirState { previous_dir : option Path; dir_stack : list Path }.

(** The process working directory as the built-ins see it: [cwd] is what
    [env::current_dir()] returns ([None] when it fails) and [home] what
    [dirs::home_dir()] returns. *)
Record Fs := mkFs { cwd : option Path; home : option Path }.

(** [Vec::pop] *)
Fixpoint vec_pop {A} (l : list A) : option (A * list A) :=
  match l with
  | [] => None
  | [x] => Some (x, [])
  | x :: r => match vec_pop r with Some (y, r') => Some (y, x :: r') | None => None end
  end.

Section Builtins.

(** [env::set_current_dir(target)] from the working directory [cur]:
    [Some d] when it succeeds, [d] being what [current_dir()] returns
    afterwards; [None] when the directory is missing or not accessible. *)
Variable enter : Path -> Path -> option Path.

(** [env::set_current_dir]: the new [Fs] on success. *)
Definition set_current_dir (fs : Fs) (cur target : Path) : option Fs :=
  match enter cur target with
  | Some d => Some (mkFs (Some d) (home fs))
  | None => None
  end.

(** [cd::run] *)
Definition cd_run (args : list string) (st : DirState) (fs : Fs)
    : (string + unit) * DirState * Fs :=
  match cwd fs with
  | None => (inl "current_dir", st, fs)
  | Some current =>
      let target :=
        match args with
        | [] => match home fs with Some h => inr h | None => inl "Could not find home directory" end
        | a :: _ =>
            if String.eqb a "-" then
              match previous_dir st with Some p => inr p | None => inl "OLDPWD not set" end
            else inr (expand_home (home fs) a)
        end in
      match target with
      | inl e => (inl e, st, fs)
      | inr t =>
          match set_current_dir fs current t with
          | None => (inl "no such file or directory", st, fs)
          | Some fs' => (inr tt, mkDirState (Some current) (dir_stack st), fs')
          end
      end
  end.

(** [cd_runner]: exit code 0 on [Ok], 1 (after printing the error) on [Err]. *)
Definition cd_runner (args : list string) (st : DirState) (fs : Fs) : Z * DirState * Fs :=
  let '(r, st', fs') := cd_run args st fs in
  match r with inr _ => (0%Z, st', fs') | inl _ => (1%Z, st', fs') end.

(** [dirs::pushd] *)
Definition pushd (args : list string) (st : DirState) (fs : Fs)
    : (string + unit) * DirState * Fs :=
  match cwd fs with
  | None => (inl "current_dir", st, fs)
  | Some current =>
      match args with
      | [] =>
          match vec_pop (dir_stack st) with
          | None => (inl "pushd: no other directory", st, fs)
          | Some (top, stack) =>
              match set_current_dir fs current top with
              | None => (inl "pushd: no such file or directory",
                         mkDirState (previous_dir st) (stack ++ [top]), fs)
              | Some fs' => (inr tt, mkDirState (Some current) (stack ++ [current]), fs')
              end
          end
      | a :: _ =>
          let target := expand_home (home fs) a in
          match set_current_dir fs current target with
          | None => (inl "pushd: no such file or directory", st, fs)
          | Some fs' => (inr tt, mkDirState (Some current) (dir_stack st ++ [current]), fs')
          end
      end
  end.

(** [dirs::popd] *)
Definition popd (args : list string) (st : DirState) (fs : Fs)
    : (string + unit) * DirState * Fs :=
  match dir_stack st with
  | [] => (inl "popd: directory stack empty", st, fs)
  | _ =>
      match cwd fs with
      | None => (inl "current_dir", st, fs)
      | Some current =>
          match vec_pop (dir_stack st) with
          | None => (inl "popd: directory stack empty", st, fs)
          | Some (target, stack) =>
              match set_current_dir fs current target with
              | None => (inl "popd: no such file or directory",
                         mkDirState (previous_dir st) (stack ++ [target]), fs)
              | Some fs' => (inr tt, mkDirState (Some current) stack, fs')
              end
          end
      end
  end.

End Builtins.

End Dirs.

Module CdSpec.
Import Dirs.
Local Open Scope list_scope.

(** Modelled from the spec: the target of [cd dir] read as the path
    [dir] after tilde expansion only: a leading [~] or [~/] is replaced by
    the home directory, and the rest of the path is handed to the operating
    system as written, [.] and [..] included. *)
Definition tilde_expand (home : option Path) (path_str : string) : Path :=
  if String.eqb path_str "~" then
    match home with Some h => h | None => components path_str end
  else if String.prefix "~/" path_str then
    match home with
    | Some h => h ++ components (substring 2 (String.length path_str) path_str)
    | None => components path_str
    end
  else components path_str.

(** Modelled from the spec: the exit code of [cd] as the spec states it:
    home with no argument, [previous_dir] for [-], the tilde-expanded path
    otherwise; 0 when that target can be entered, 1 when it cannot. *)
Definition cd_spec_exit (enter : Path -> Path -> option Path)
    (args : list string) (st : DirState) (fs : Fs) : Z :=
  match cwd fs with
  | None => 1%Z
  | Some cur =>
      let target :=
        match args with
        | [] => home fs
        | a :: _ => if String.eqb a "-" then previous_dir st else Some (tilde_expand (home fs) a)
        end in
      match target with
      | None => 1%Z
      | Some t => match enter cur t with Some _ => 0%Z | None => 1%Z end
      end
  end.

(** A file system whose working directory [/w] holds no entry [a]: only
    the working directory itself, written [.], can be entered. *)
Definition enter_no_a (cur : Path) (t : Path) : option Path :=
  match t with
  | [CurDir] => Some cur
  | _ => None
  end.

End CdSpec.

Module ListSpec.
Import Ast Engine.

(** Modelled from the spec: when an entry of a command list is skipped,
    from its connector and the last exit code ([None], [Semi] and [Amp]:
    never; [And]: when the code is non-zero; [Or]: when it is zero). *)
Definition spec_skip (c : option Connector) (last_code : Z) : Prop :=
  match c with
  | Some And => last_code <> 0%Z
  | Some Or => last_code = 0%Z
  | _ => False
  end.

(** Modelled from the spec: left-to-right evaluation of a command list
    with [exec] running one pipeline.  [list_eval exec lc es w r w'] says
    that starting with last code [lc] in world [w] the entries [es] end with
    result [r] in world [w']: a skipped entry keeps the last code, an
    executed one sets it, and an [Exit] stops the evaluation. *)
Inductive list_eval (exec : Pipeline -> World -> ExecutionResult * Z * World)
    : Z -> list CommandEntry -> World -> ExecutionResult -> World -> Prop :=
  | LE_nil lc w : list_eval exec lc [] w KeepRunning w
  | LE_skip lc e rest w r w' :
      spec_skip (connector e) lc ->
      list_eval exec lc rest w r w' ->
      list_eval exec lc (e :: rest) w r w'
  | LE_exit lc e rest w code w' :
      ~ spec_skip (connector e) lc ->
      exec (pipeline e) w = (Exit, code, w') ->
      list_eval exec lc (e :: rest) w Exit w'
  | LE_run lc e rest w code w1 r w' :
      ~ spec_skip (connector e) lc ->
      exec (pipeline e) w = (KeepRunning, code, w1) ->
      list_eval exec code rest w1 r w' ->
      list_eval exec lc (e :: rest) w r w'.

End ListSpec.

Module Repl.
Import Ast Engine.

Section Steps.
Variable glob : string -> option (list (option string)).
Variable is_builtin : string -> bool.
Variable run_builtin : string -> list string -> World -> ExecutionResult * Z * World.
Variable open_ok : Redirect -> bool.
Variable spawn_ok : string -> bool.

(** One step of the shell as [main] drives the engine: a parsed command
    line run by [execute_list], the [update_jobs] poll at the top of the
    read loop, a [wait_for_job] call, and, between steps, new statuses
    reported by the operating system. *)
Inductive engine_step : World -> World -> Prop :=
  | ES_list entries w r w' :
      execute_list glob is_builtin run_builtin open_ok spawn_ok entries w = (r, w') ->
      engine_step w w'
  | ES_update ready w : engine_step w (update_jobs ready w)
  | ES_wait job_id fg w code w' :
      wait_for_job job_id w fg = (code, w') -> engine_step w w'
  | ES_os q w : engine_step w (mkWorld (shell w) q (next_pid w) (job_log w)).

End Steps.

(** The engine step from [w] to [w'] allocates no job: [next_job_id] and
    the log of registered jobs stay, and the job table only loses entries
    (or changes their processes).  The built-ins ([job.fg], [job.wait],
    [job.bg], ...) are steps of this kind: none of them inserts a job or
    touches [next_job_id]. *)
Definition shrinks (w w' : World) : Prop :=
  next_job_id (shell w') = next_job_id (shell w) /\
  job_log w' = job_log w /\
  (forall k, is_Some (jobs (shell w') !! k) -> is_Some (jobs (shell w) !! k)).

(** The invariant of the job table: every key is below [next_job_id], and
    the registered ids are below it, strictly increasing, and were all free
    in the table when they were assigned. *)
Definition job_inv (w : World) : Prop :=
  (forall k, is_Some (jobs (shell w) !! k) -> k < next_job_id (shell w)) /\
  Forall (fun e => e.1 < next_job_id (shell w) /\ e.2 = false) (job_log w) /\
  StronglySorted lt (map fst (job_log w)).

End Repl.

Module Fixtures.
Import Ast Jobs Engine.

(** A small closed setting for running the engine on concrete inputs: no
    glob matches, no built-ins, every redirection opens and every command
    spawns. *)
Definition no_glob (pat : string) : option (list (option string)) := None.
Definition no_builtin (n : string) : bool := false.
Definition noop_builtin (n : string) (args : list string) (w : World)
    : ExecutionResult * Z * World := (KeepRunning, 0%Z, w).
Definition all_open (r : Redirect) : bool := true.
Definition all_spawn (n : string) : bool := true.

Definition simple_cmd (n : string) (args : list string) : ParsedCommand :=
  mkCommand [] (Some n) (map (fun a => mkArg a false) args) [].

(** [sleep 1] as the parser produces it. *)
Definition sleep_entry : CommandEntry :=
  mkEntry None (mkPipeline [simple_cmd "sleep" ["1"]] false false).

(** A fresh shell ([ShellState::new]: no job, [next_job_id = 1]) whose next
    child gets pid 1 and exits with 0. *)
Definition world0 : World :=
  mkWorld (mkShell ∅ ∅ ∅ 1) [WExited 1 0%Z] 1 [].

(** Every command spawns except [nosuch], which is not found. *)
Definition spawn_known (n : string) : bool := negb (String.eqb n "nosuch").

(** A fresh shell whose next child gets pid 1. *)
Definition world_fresh : World := mkWorld (mkShell ∅ ∅ ∅ 1) [] 1 [].

End Fixtures.

Module Predicates.
Import Ast Jobs Engine.
Local Open Scope list_scope.

(** [String.leb] as a relation, for sortedness. *)
Definition str_le (a b : string) : Prop := String.leb a b = true.

(** A glob oracle for tests: [*.rs] matches [main.rs] and [lib.rs] (and one
    unreadable entry), a lone opening bracket is an invalid pattern, and
    any other pattern matches nothing. *)
Definition demo_glob (pat : string) : option (list (option string)) :=
  if String.eqb pat "*.rs" then Some [Some "main.rs"; None; Some "lib.rs"]
  else if String.eqb pat "[" then None
  else Some [].

(** The process-state rules of the job states. *)
Definition all_done (ps : list ProcessInfo) : Prop :=
  forall p, In p ps -> exists c, pstate p = Done c.

Definition all_stopped_or_done (ps : list ProcessInfo) : Prop :=
  forall p, In p ps -> pstate p = Stopped \/ exists c, pstate p = Done c.

Definition some_stopped (ps : list ProcessInfo) : Prop :=
  exists p, In p ps /\ pstate p = Stopped.

(** The processes spawned for [cmds], pids counting up from [pid0]. *)
Fixpoint procs_of (pid0 : nat) (cmds : list ParsedCommand) : list ProcessInfo :=
  match cmds with
  | [] => []
  | c :: r =>
      mkProcess pid0 (match name c with Some n => n | None => EmptyString end) Running
        :: procs_of (S pid0) r
  end.

(** The state of the processes of a job while [wait_for_job] runs:
    [target] pairs each pid with the code it exits with; a process is
    either done with that code or still running with its exit queued. *)
Definition wait_inv (ps : list ProcessInfo) (target : list (nat * Z)) (q : list WaitStatus)
    : Prop :=
  Forall2 (fun pr pc => pid pr = pc.1 /\
             (pstate pr = Done pc.2 \/ (pstate pr = Running /\ In (WExited pc.1 pc.2) q)))
          ps target.

(** A command of a pipeline that [execute] runs as a spawned external
    process. *)
Definition good_cmd (is_builtin spawn_ok : string -> bool) (c : ParsedCommand) : Prop :=
  exists n, name c = Some n /\ n <> "exit" /\ is_builtin n = false /\ spawn_ok n = true.

End Predicates.

(* ===================================================================== *)
(** ** src/src/builtins/dirs.rs (runners), src/src/parser/mod.rs ([parse_line]) *)
(* ===================================================================== *)

Module DirsRunners.
Import Dirs.

(** [run_dirs]: what it prints, the current directory and then the stack
    from its top ([dir_stack.iter().rev()]); nothing when
    [env::current_dir()] fails. *)
Definition run_dirs (st : DirState) (fs : Fs) : option (list Path) :=
  match cwd fs with
  | Some current => Some (current :: rev (dir_stack st))
  | None => None
  end.

Section Runners.
Variable enter : Path -> Path -> option Path.

(** [pushd_runner]: exit code 0 on [Ok], 1 (after printing the error) on [Err]. *)
Definition pushd_runner (args : list string) (st : DirState) (fs : Fs) : Z * DirState * Fs :=
  let '(r, st', fs') := pushd enter args st fs in
  match r with inr _ => (0%Z, st', fs') | inl _ => (1%Z, st', fs') end.

(** [popd_runner] *)
Definition popd_runner (args : list string) (st : DirState) (fs : Fs) : Z * DirState * Fs :=
  let '(r, st', fs') := popd enter args st fs in
  match r with inr _ => (0%Z, st', fs') | inl _ => (1%Z, st', fs') end.

End Runners.

End DirsRunners.

Module ParseLine.
Import Ast Parser.

Section ParseLine.
Variable shell_vars : gmap string string.

(** [parse_line]: the command of a line made of one entry holding a
    one-command pipeline. *)
Definition parse_line (input : string) : option ParsedCommand :=
  match parse_input shell_vars input with
  | Some v =>
      match v with
      | [e] => match commands (pipeline e) with [c] => Some c | _ => None end
      | _ => None
      end
  | None => None
  end.

End ParseLine.

End ParseLine.

Module ExtraPredicates.
Local Open Scope list_scope.

(** The job has settled: it left the table or it is stopped. *)
Definition settled (job_id : nat) (w : Engine.World) : Prop :=
  Engine.jobs (Engine.shell w) !! job_id = None \/
  exists j, Engine.jobs (Engine.shell w) !! job_id = Some j /\ Jobs.is_stopped j = true.

(** The shapes of a normalized path: a root followed by names, or some
    leading [..] followed by names. *)
Definition nf (p : Dirs.Path) : Prop :=
  (exists xs, p = Dirs.RootDir :: map Dirs.Normal xs) \/
  (exists k xs, p = repeat Dirs.ParentDir k ++ map Dirs.Normal xs).

(** A command as [parse_single_command] accepts it: it has a name or at
    least one assignment. *)
Definition named_or_assigns (c : Ast.ParsedCommand) : Prop :=
  Ast.name c <> None \/ Ast.assignments c <> [].

(** A well-formed entry: a non-empty pipeline of commands that have a name
    or an assignment. *)
Definition good_entry (e : Ast.CommandEntry) : Prop :=
  Ast.commands (Ast.pipeline e) <> [] /\ Forall named_or_assigns (Ast.commands (Ast.pipeline e)).

(** Entering succeeds for every directory except [/missing], and
    [current_dir] reports the target. *)
Definition enter_all_but_missing (cur t : Dirs.Path) : option Dirs.Path :=
  match t with [Dirs.RootDir; Dirs.Normal "missing"] => None | _ => Some t end.

(** A job of one running process. *)
Definition running_job (job_id child : nat) (n : string) : Jobs.Job :=
  Jobs.mkJob job_id child n [Jobs.mkProcess child n Jobs.Running] false.

(** Two background jobs, [1] (pid 1) and [2] (pid 2); pid 1 has exited. *)
Definition world_two_jobs : Engine.World :=
  Engine.mkWorld
    (Engine.mkShell ∅ ∅ (<[2 := running_job 2 2 "b"]> (<[1 := running_job 1 1 "a"]> ∅)) 3)
    [Engine.WExited 1 0%Z] 3 [(1, false); (2, false)].

End ExtraPredicates.

(* ===================================================================== *)
(** * Proofs *)
(* ===================================================================== *)

Module ExpandFacts.
Import Expand.

Lemma ascii_eqb_true a b : ascii_eqb a b = true <-> a = b.
Proof. unfold ascii_eqb. destruct (ascii_dec a b); split; congruence. Qed.

Lemma ascii_eqb_refl a : ascii_eqb a a = true.
Proof. by apply ascii_eqb_true. Qed.

Lemma take_until_brace_length s name r :
  take_until_brace s = (name, r) -> String.length r <= String.length s.
Proof.
  revert name r. induction s as [|c s IH]; simpl; intros name r H.
  - inversion H; subst; simpl; lia.
  - destruct (ascii_eqb c "}"%char).
    + inversion H; subst; lia.
    + destruct (take_until_brace s) as [n' r'] eqn:E. inversion H; subst.
      specialize (IH _ _ eq_refl). lia.
Qed.

Lemma take_ident_length s name r :
  take_ident s = (name, r) -> String.length r <= String.length s.
Proof.
  revert name r. induction s as [|c s IH]; simpl; intros name r H.
  - inversion H; subst; simpl; lia.
  - destruct (is_ascii_alphanumeric c || ascii_eqb c "_"%char).
    + destruct (take_ident s) as [n' r'] eqn:E. inversion H; subst.
      specialize (IH _ _ eq_refl). lia.
    + inversion H; subst; simpl; lia.
Qed.

(** The iteration bound is irrelevant once it covers the input. *)
Lemma go_fuel n m M s :
  String.length s <= n -> String.length s <= m -> go n M s = go m M s.
Proof.
  revert m s. induction n as [|n IH]; intros m s Hn Hm.
  - destruct s; simpl in *; [destruct m; reflexivity | lia].
  - destruct m as [|m].
    + destruct s; simpl in *; [reflexivity | lia].
    + destruct s as [|ch rest]; [reflexivity|]. simpl in Hn, Hm. simpl.
      destruct (negb (ascii_eqb ch "$"%char)).
      * f_equal. apply IH; lia.
      * destruct rest as [|c rest']; simpl.
        { f_equal. apply IH; simpl; lia. }
        simpl in Hn, Hm.
        destruct (ascii_eqb c "$"%char).
        { f_equal. apply IH; lia. }
        destruct (ascii_eqb c "{"%char).
        { destruct (take_until_brace rest') as [nm r] eqn:E.
          apply take_until_brace_length in E. f_equal. apply IH; lia. }
        destruct (is_ascii_alphabetic c || ascii_eqb c "_"%char).
        { destruct (take_ident rest') as [nm r] eqn:E.
          apply take_ident_length in E. f_equal. apply IH; lia. }
        f_equal. apply IH; simpl; lia.
Qed.

Lemma expand_no_dollar M s : no_dollar s = true -> expand_vars s M = s.
Proof.
  unfold expand_vars. induction s as [|c s IH]; simpl; intros H; [reflexivity|].
  apply andb_prop in H as [Hc Hs]. rewrite Hc. f_equal. by apply IH.
Qed.

Lemma take_ident_all s : all_ident_chars s = true -> take_ident s = (s, EmptyString).
Proof.
  induction s as [|c s IH]; simpl; intros H; [reflexivity|].
  apply andb_prop in H as [Hc Hs]. unfold ident_char in Hc. rewrite Hc.
  by rewrite IH.
Qed.

Lemma ident_char_not_brace c : ident_char c = true -> ascii_eqb c "}"%char = false.
Proof.
  intros H. destruct (ascii_eqb c "}"%char) eqn:E; [|reflexivity].
  apply ascii_eqb_true in E; subst. discriminate H.
Qed.

Lemma take_until_brace_ident s r :
  all_ident_chars s = true -> take_until_brace (append s (String "}"%char r)) = (s, r).
Proof.
  induction s as [|c s IH]; simpl; intros H; [reflexivity|].
  apply andb_prop in H as [Hc Hs]. rewrite (ident_char_not_brace c Hc).
  by rewrite IH.
Qed.

(** [String.append] is declared [simpl never] by stdpp; its equations. *)
Lemma append_cons c s t : append (String c s) t = String c (append s t).
Proof. reflexivity. Qed.

Lemma append_nil_l t : append EmptyString t = t.
Proof. reflexivity. Qed.

Lemma append_empty_r s : append s EmptyString = s.
Proof. induction s as [|c s IH]; [reflexivity|]. by rewrite append_cons, IH. Qed.

Lemma go_empty n M : go n M EmptyString = EmptyString.
Proof. destruct n; reflexivity. Qed.


Lemma expand_dollar_ident M X :
  is_identifier X = true -> expand_vars (String "$"%char X) M = get_var M X.
Proof.
  destruct X as [|c r]; [discriminate|]. simpl. intros H.
  apply andb_prop in H as [Hc Hr].
  unfold expand_vars. cbn [String.length go chars_peek chars_skip].
  rewrite ascii_eqb_refl. simpl negb. cbv iota.
  destruct (ascii_eqb c "$"%char) eqn:E1.
  { apply ascii_eqb_true in E1; subst. discriminate Hc. }
  destruct (ascii_eqb c "{"%char) eqn:E2.
  { apply ascii_eqb_true in E2; subst. discriminate Hc. }
  rewrite Hc, (take_ident_all r Hr); try rewrite go_empty; apply append_empty_r.
Qed.

Lemma expand_brace_ident M X :
  is_identifier X = true ->
  expand_vars (String "$"%char (String "{"%char (append X "}"))) M = get_var M X.
Proof.
  intros H.
  assert (Hall : all_ident_chars X = true).
  { destruct X as [|c r]; [discriminate|]. simpl in *.
    apply andb_prop in H as [Hc Hr]. rewrite Hr, andb_true_r.
    unfold ident_char, is_ascii_alphanumeric.
    destruct (is_ascii_alphabetic c); [reflexivity|]. simpl in *. rewrite Hc. apply orb_true_r. }
  unfold expand_vars. cbn [String.length go chars_peek chars_skip].
  rewrite ascii_eqb_refl. simpl negb. cbv iota.
  change (ascii_eqb "{"%char "$"%char) with false.
  change (ascii_eqb "{"%char "{"%char) with true. cbv iota.
  rewrite (take_until_brace_ident X EmptyString Hall); try rewrite go_empty; apply append_empty_r.
Qed.

Lemma expand_bare_dollar M s :
  (forall c t, s = String c t ->
     ident_char c = false /\ c <> "{"%char /\ c <> "$"%char) ->
  expand_vars (String "$"%char s) M = String "$"%char (expand_vars s M).
Proof.
  intros Hs. unfold expand_vars. cbn [String.length go].
  rewrite ascii_eqb_refl. simpl negb. cbv iota.
  destruct s as [|c t]; [reflexivity|].
  destruct (Hs c t eq_refl) as (Hi & Hb & Hd). cbn [chars_peek].
  destruct (ascii_eqb c "$"%char) eqn:E1; [apply ascii_eqb_true in E1; congruence|].
  destruct (ascii_eqb c "{"%char) eqn:E2; [apply ascii_eqb_true in E2; congruence|].
  unfold ident_char, is_ascii_alphanumeric in Hi.
  apply orb_false_iff in Hi as [Hi1 Hi2]. apply orb_false_iff in Hi1 as [Ha _].
  rewrite Ha, Hi2. reflexivity.
Qed.

End ExpandFacts.

Module ExpandClaims.
Import Expand ExpandFacts.

(** C3.  For every variable map [M]: a string without [$] is returned
    unchanged; [$$] gives [$]; for an identifier [X], [$X] and [${X}] give
    [M[X]] when bound and the empty string otherwise; a bare [$] followed by
    nothing, or by a character that is neither an identifier character nor
    [{] nor [$], is kept. *)
Theorem expand_vars_contract (M : gmap string string) :
  (forall S, no_dollar S = true -> expand_vars S M = S) /\
  expand_vars "$$" M = "$" /\
  (forall X, is_identifier X = true ->
     (forall v, M !! X = Some v ->
        expand_vars (String "$"%char X) M = v /\
        expand_vars (String "$"%char (String "{"%char (append X "}"))) M = v) /\
     (M !! X = None ->
        expand_vars (String "$"%char X) M = "" /\
        expand_vars (String "$"%char (String "{"%char (append X "}"))) M = "")) /\
  (forall s, (forall c t, s = String c t ->
                ident_char c = false /\ c <> "{"%char /\ c <> "$"%char) ->
     expand_vars (String "$"%char s) M = String "$"%char (expand_vars s M)).
Proof.
  split; [intros S; apply expand_no_dollar|].
  split; [reflexivity|].
  split.
  - intros X HX. rewrite (expand_dollar_ident M X HX), (expand_brace_ident M X HX).
    unfold get_var. split.
    + intros v Hv. rewrite Hv. auto.
    + intros Hn. rewrite Hn. auto.
  - intros s Hs. by apply expand_bare_dollar.
Qed.

Lemma expand_vars_contract_witness :
  expand_vars "ls -la" (<["HOME" := "/h"]> ∅) = "ls -la" /\
  expand_vars "$HOME" (<["HOME" := "/h"]> ∅) = "/h" /\
  expand_vars "${HOME}" (<["HOME" := "/h"]> ∅) = "/h" /\
  expand_vars "$NOPE" (<["HOME" := "/h"]> ∅) = "" /\
  expand_vars "$ x" (<["HOME" := "/h"]> ∅) = "$ x".
Proof.
  destruct (expand_vars_contract (<["HOME" := "/h"]> ∅)) as (H1 & _ & H3 & H4).
  split; [apply H1; reflexivity|].
  destruct (H3 "HOME" eq_refl) as [Hb _].
  destruct (Hb "/h" eq_refl) as [Ha Hc].
  split; [exact Ha|]. split; [exact Hc|].
  split; [apply (H3 "NOPE" eq_refl); reflexivity|].
  rewrite (H4 " x").
  - reflexivity.
  - intros c t Ht. injection Ht as <- <-. split; [reflexivity|]. split; discriminate.
Defined.

End ExpandClaims.

Module ExpandTests.
Import Expand.

(** Unit tests of expand.rs, evaluated on the model. *)
Example test_dollar_dollar : expand_vars "$$$" ∅ = "$$".
Proof. reflexivity. Qed.
Example test_cost : expand_vars "cost: $$5" ∅ = "cost: $5".
Proof. reflexivity. Qed.
Example test_bare : expand_vars "$ " ∅ = "$ " /\ expand_vars "$" ∅ = "$".
Proof. split; reflexivity. Qed.
Example test_inline :
  expand_vars "hello $G!" (<["G" := "world"]> ∅) = "hello world!".
Proof. reflexivity. Qed.
Example test_braces :
  expand_vars "${A}/$A_x" (<["A" := "foo"]> ∅) = "foo/".
Proof. reflexivity. Qed.

End ExpandTests.

Module GlobClaims.
Import Ast Glob Predicates.
Local Open Scope list_scope.


Lemma insert_sorted_perm x l : Permutation (insert_sorted x l) (x :: l).
Proof.
  induction l as [|y l IH]; simpl; [reflexivity|].
  destruct (String.leb x y); [reflexivity|].
  rewrite IH. apply perm_swap.
Qed.

Lemma sort_perm l : Permutation (sort l) l.
Proof.
  induction l as [|x l IH]; simpl; [constructor|].
  rewrite insert_sorted_perm. by constructor.
Qed.

Lemma insert_sorted_sorted x l : Sorted str_le l -> Sorted str_le (insert_sorted x l).
Proof.
  induction 1 as [|y l Hs IH Hd]; simpl.
  - repeat constructor.
  - destruct (String.leb x y) eqn:E.
    + constructor; [constructor; assumption | constructor; exact E].
    + assert (Hyx : str_le y x).
      { destruct (String.leb_total x y) as [H|H]; [congruence | exact H]. }
      constructor; [exact IH|].
      destruct l as [|z l']; simpl.
      * constructor. exact Hyx.
      * inversion Hd as [|? ? Hyz]; subst.
        destruct (String.leb x z); constructor; assumption.
Qed.

Lemma sort_sorted l : Sorted str_le (sort l).
Proof. induction l; simpl; [constructor | by apply insert_sorted_sorted]. Qed.

Lemma expand_globs_acc_flat glob args acc :
  expand_globs_acc glob args acc = acc ++ flat_map (expand_arg glob) args.
Proof.
  revert acc. induction args as [|a args IH]; intros acc; simpl.
  - by rewrite app_nil_r.
  - rewrite IH. by rewrite app_assoc.
Qed.

(** C5.  [expand_globs] maps every argument independently; a quoted
    argument, or one without [*], [?], [[], gives its value; an unquoted
    argument with a meta-character gives its matches sorted
    lexicographically when there is one, and its own value when there is
    none (also when the pattern is rejected). *)
Theorem expand_globs_contract (glob : string -> option (list (option string))) (args : list Arg) :
  expand_globs glob args = flat_map (expand_arg glob) args /\
  (forall arg, In arg args ->
     ((quoted arg = true \/ contains_glob_chars (value arg) = false) ->
        expand_arg glob arg = [value arg]) /\
     (quoted arg = false -> contains_glob_chars (value arg) = true ->
        (forall entries, glob (value arg) = Some entries ->
           (filter_ok entries = [] -> expand_arg glob arg = [value arg]) /\
           (filter_ok entries <> [] ->
              Sorted str_le (expand_arg glob arg) /\
              Permutation (expand_arg glob arg) (filter_ok entries))) /\
        (glob (value arg) = None -> expand_arg glob arg = [value arg]))).
Proof.
  split; [unfold expand_globs; by rewrite expand_globs_acc_flat|].
  intros arg _. unfold expand_arg. split.
  - intros [H|H]; rewrite H; [reflexivity|]. by rewrite orb_true_r.
  - intros Hq Hc. rewrite Hq, Hc. simpl. split.
    + intros entries He. rewrite He. split.
      * intros Hn. by rewrite Hn.
      * intros Hn. destruct (filter_ok entries) as [|m ms]; [congruence|].
        split; [apply (sort_sorted (m :: ms)) | apply (sort_perm (m :: ms))].
    + intros He. by rewrite He.
Qed.


Lemma expand_globs_contract_witness :
  expand_globs demo_glob [mkArg "*.rs" false; mkArg "*.rs" true; mkArg "*.md" false; mkArg "[" false]
  = ["lib.rs"; "main.rs"; "*.rs"; "*.md"; "["] /\
  expand_arg demo_glob (mkArg "*.rs" true) = ["*.rs"] /\
  Permutation (expand_arg demo_glob (mkArg "*.rs" false)) ["main.rs"; "lib.rs"] /\
  expand_arg demo_glob (mkArg "*.md" false) = ["*.md"].
Proof.
  destruct (expand_globs_contract demo_glob
              [mkArg "*.rs" false; mkArg "*.rs" true; mkArg "*.md" false]) as [_ H].
  split; [vm_compute; reflexivity|].
  split.
  { destruct (H (mkArg "*.rs" true)) as [H1 _]; [simpl; auto|].
    apply H1. left. reflexivity. }
  split.
  - destruct (H (mkArg "*.rs" false)) as [_ H2]; [simpl; auto|].
    destruct (H2 eq_refl eq_refl) as [H3 _].
    destruct (H3 _ eq_refl) as [_ H4].
    apply H4. discriminate.
  - destruct (H (mkArg "*.md" false)) as [_ H2]; [simpl; auto|].
    destruct (H2 eq_refl eq_refl) as [H3 _].
    destruct (H3 _ eq_refl) as [H4 _]. apply H4. reflexivity.
Defined.

End GlobClaims.

Module JobClaims.
Import Jobs Predicates.
Local Open Scope list_scope.

Lemma vec_last_in {A} (l : list A) x : vec_last l = Some x -> In x l.
Proof.
  induction l as [|a l IH]; simpl; [discriminate|].
  destruct l as [|b l']; [intros [=<-]; auto|]. intros H; right; auto.
Qed.

Lemma vec_last_some {A} (l : list A) : l <> [] -> exists x, vec_last l = Some x.
Proof.
  induction l as [|a l IH]; [congruence|]. intros _.
  destruct l as [|b l']; [eauto|]. apply IH. discriminate.
Qed.


Lemma is_done_iff j : is_done j = true <-> all_done (processes j).
Proof.
  unfold is_done, all_done. rewrite forallb_forall. split; intros H p Hp;
    specialize (H p Hp); destruct (pstate p); try discriminate; eauto.
  destruct H as [c Hc]; discriminate.
  destruct H as [c Hc]; discriminate.
Qed.

Lemma is_stopped_iff j :
  is_stopped j = true <-> all_stopped_or_done (processes j) /\ some_stopped (processes j).
Proof.
  unfold is_stopped, all_stopped_or_done, some_stopped.
  rewrite andb_true_iff, forallb_forall, existsb_exists. split.
  - intros [H1 [p [Hp Hs]]]. split.
    + intros q Hq. specialize (H1 q Hq). destruct (pstate q); eauto; discriminate.
    + exists p. split; [exact Hp|]. destruct (pstate p); simpl in Hs; congruence.
  - intros [H1 [p [Hp Hs]]]. split.
    + intros q Hq. destruct (H1 q Hq) as [H|[c H]]; rewrite H; reflexivity.
    + exists p. rewrite Hs. auto.
Qed.

(** C6.  For a job with at least one process, [Job::state] is [Done c]
    exactly when every process is done and [c] is the code of the last one;
    [Stopped] exactly when every process is stopped or done, at least one is
    stopped, and not all are done; [Running] in every other case. *)
Theorem job_state_derivation (j : Job) :
  processes j <> [] ->
  (forall c, state j = Done c <->
     all_done (processes j) /\
     exists p, vec_last (processes j) = Some p /\ pstate p = Done c) /\
  (state j = Stopped <->
     all_stopped_or_done (processes j) /\ some_stopped (processes j) /\
     ~ all_done (processes j)) /\
  (state j = Running <->
     ~ all_done (processes j) /\
     ~ (all_stopped_or_done (processes j) /\ some_stopped (processes j))).
Proof.
  intros Hne.
  pose proof (is_done_iff j) as Hd. pose proof (is_stopped_iff j) as Hs.
  destruct (vec_last_some _ Hne) as [lp Hlp].
  unfold state. rewrite Hlp.
  destruct (is_done j) eqn:Ed; [|destruct (is_stopped j) eqn:Es].
  - assert (Hall : all_done (processes j)) by (by apply Hd).
    destruct (Hall lp (vec_last_in _ _ Hlp)) as [c0 Hc0].
    rewrite Hc0. split; [|split].
    + intros c. split.
      * intros [=<-]. split; [exact Hall|]. eauto.
      * intros [_ [p [Hp Hpc]]]. injection Hp as <-.
        rewrite Hc0 in Hpc. congruence.
    + split; [discriminate|]. intros (_ & _ & Hn). contradiction.
    + split; [discriminate|]. intros [Hn _]. contradiction.
  - split; [|split].
    + intros c. split; [discriminate|]. intros [Hall _].
      apply Hd in Hall. discriminate.
    + split; [|reflexivity]. intros _.
      destruct (proj1 Hs eq_refl) as [H1 H2]. split; [exact H1|]. split; [exact H2|].
      intros Hall. apply Hd in Hall. discriminate.
    + split; [discriminate|]. intros [_ Hn]. exfalso. apply Hn. by apply Hs.
  - split; [|split].
    + intros c. split; [discriminate|]. intros [Hall _].
      apply Hd in Hall. discriminate.
    + split; [discriminate|]. intros (H1 & H2 & _).
      assert (Hf : false = true) by (apply Hs; auto). discriminate.
    + split; [|reflexivity]. intros _. split.
      * intros Hall. apply Hd in Hall. discriminate.
      * intros H. apply Hs in H. congruence.
Qed.

Lemma job_state_derivation_witness :
  state (mkJob 1 10 "a | b" [mkProcess 10 "a" (Done 3%Z); mkProcess 11 "b" (Done 0%Z)] false)
    = Done 0%Z /\
  state (mkJob 2 20 "a | b" [mkProcess 20 "a" Stopped; mkProcess 21 "b" (Done 1%Z)] false)
    = Stopped.
Proof.
  split.
  - apply (job_state_derivation
             (mkJob 1 10 "a | b" [mkProcess 10 "a" (Done 3%Z); mkProcess 11 "b" (Done 0%Z)] false)).
    + discriminate.
    + split.
      * intros p Hp. simpl in Hp.
        destruct Hp as [<-|[<-|[]]]; simpl; eauto.
      * exists (mkProcess 11 "b" (Done 0%Z)). split; reflexivity.
  - apply (job_state_derivation
             (mkJob 2 20 "a | b" [mkProcess 20 "a" Stopped; mkProcess 21 "b" (Done 1%Z)] false)).
    + discriminate.
    + split; [|split].
      * intros p Hp. simpl in Hp.
        destruct Hp as [<-|[<-|[]]]; simpl; eauto.
      * exists (mkProcess 20 "a" Stopped). simpl. auto.
      * intros Hall. destruct (Hall (mkProcess 20 "a" Stopped)) as [c Hc];
          [simpl; auto | discriminate].
Defined.

End JobClaims.

Module DirsClaims.
Import Dirs.
Local Open Scope list_scope.

Lemma vec_pop_snoc {A} (l : list A) x : vec_pop (l ++ [x]) = Some (x, l).
Proof.
  induction l as [|a l IH]; [reflexivity|].
  destruct l as [|b l]; [reflexivity|].
  change (match vec_pop ((b :: l) ++ [x]) with
          | Some (y, r') => Some (y, a :: r') | None => None end = Some (x, a :: b :: l)).
  rewrite IH. reflexivity.
Qed.

Lemma vec_pop_inv {A} (l : list A) x l' : vec_pop l = Some (x, l') -> l = l' ++ [x].
Proof.
  revert l'. induction l as [|a l IH]; intros l'; simpl; [discriminate|].
  destruct l as [|b r].
  - intros [=<- <-]. reflexivity.
  - destruct (vec_pop (b :: r)) as [[y r']|] eqn:E; [|discriminate].
    intros [=<- <-]. simpl. f_equal. by apply IH.
Qed.

(** C9.  If the working directory [cur] can be read, the argument [d]
    can be entered, and [cur] can be re-entered from there, then
    [pushd d] followed by [popd] succeeds, comes back to [cur], and leaves a
    directory stack of the same length (indeed the same stack). *)
Theorem pushd_popd_roundtrip (enter : Path -> Path -> option Path)
    (st : DirState) (fs : Fs) (cur d' : Path) (d : string) (rest : list string) :
  cwd fs = Some cur ->
  enter cur (expand_home (home fs) d) = Some d' ->
  enter d' cur = Some cur ->
  exists st1 fs1 st2 fs2,
    pushd enter (d :: rest) st fs = (inr tt, st1, fs1) /\
    popd enter [] st1 fs1 = (inr tt, st2, fs2) /\
    cwd fs2 = Some cur /\
    dir_stack st2 = dir_stack st /\
    length (dir_stack st2) = length (dir_stack st).
Proof.
  intros Hcwd Hd Hback.
  unfold pushd. rewrite Hcwd. unfold set_current_dir. rewrite Hd.
  do 2 eexists. exists (mkDirState (Some d') (dir_stack st)), (mkFs (Some cur) (home fs)).
  split; [reflexivity|].
  unfold popd. cbn [dir_stack cwd]. rewrite vec_pop_snoc.
  destruct (dir_stack st ++ [cur]) eqn:E; [destruct (dir_stack st); discriminate|].
  unfold set_current_dir. rewrite Hback.
  repeat split; reflexivity.
Qed.

Lemma pushd_popd_roundtrip_witness :
  exists st1 fs1 st2 fs2,
    pushd (fun _ t => Some t) ["/tmp"] (mkDirState None []) (mkFs (Some [RootDir; Normal "h"]) None)
      = (inr tt, st1, fs1) /\
    popd (fun _ t => Some t) [] st1 fs1 = (inr tt, st2, fs2) /\
    cwd fs2 = Some [RootDir; Normal "h"] /\
    dir_stack st2 = [] /\ length (dir_stack st2) = 0.
Proof.
  apply (pushd_popd_roundtrip (fun _ t => Some t) (mkDirState None [])
           (mkFs (Some [RootDir; Normal "h"]) None) [RootDir; Normal "h"]
           [RootDir; Normal "tmp"] "/tmp" []); reflexivity.
Defined.

(** C10.  When the directory taken from the top of the stack cannot be
    entered, [popd] and zero-argument [pushd] fail and leave the directory
    stack and [previous_dir] as they were (and the working directory). *)
Theorem dirs_failure_restores (enter : Path -> Path -> option Path)
    (st : DirState) (fs : Fs) (cur top : Path) (stack : list Path) (args : list string) :
  cwd fs = Some cur ->
  vec_pop (dir_stack st) = Some (top, stack) ->
  enter cur top = None ->
  (exists e, popd enter args st fs = (inl e, st, fs)) /\
  (exists e, pushd enter [] st fs = (inl e, st, fs)).
Proof.
  intros Hcwd Hpop Hfail.
  pose proof (vec_pop_inv _ _ _ Hpop) as Hst.
  assert (Hrestore : mkDirState (previous_dir st) (stack ++ [top]) = st).
  { destruct st as [pd ds]. simpl in *. by rewrite Hst. }
  split.
  - unfold popd.
    rewrite Hcwd, Hpop.
    destruct (dir_stack st) eqn:E; [discriminate|].
    unfold set_current_dir. rewrite Hfail, Hrestore. eauto.
  - unfold pushd. rewrite Hcwd, Hpop. unfold set_current_dir. rewrite Hfail, Hrestore. eauto.
Qed.

Lemma dirs_failure_restores_witness :
  (exists e, popd (fun _ _ => None) [] (mkDirState (Some []) [[Normal "gone"]])
                    (mkFs (Some [RootDir]) None)
             = (inl e, mkDirState (Some []) [[Normal "gone"]], mkFs (Some [RootDir]) None)) /\
  (exists e, pushd (fun _ _ => None) [] (mkDirState (Some []) [[Normal "gone"]])
                     (mkFs (Some [RootDir]) None)
             = (inl e, mkDirState (Some []) [[Normal "gone"]], mkFs (Some [RootDir]) None)).
Proof.
  apply (dirs_failure_restores (fun _ _ => None) (mkDirState (Some []) [[Normal "gone"]])
           (mkFs (Some [RootDir]) None) [RootDir] [Normal "gone"] [] []); reflexivity.
Defined.

End DirsClaims.

Module CdClaims.
Import Dirs CdSpec.
Local Open Scope list_scope.

(** C8 (counterexample).  In a working directory [/w] without an entry
    [a], [cd a/..] exits with 0 in the code, since [expand_home] folds
    [a/..] to [.] before the directory is changed, whereas entering the
    tilde-expanded path [a/..] as written fails and the claim predicts 1. *)
Lemma cd_dotdot_counterexample :
  expand_home None "a/.." = [CurDir] /\
  tilde_expand None "a/.." = [Normal "a"; ParentDir] /\
  fst (fst (cd_runner enter_no_a ["a/.."] (mkDirState None [])
              (mkFs (Some [RootDir; Normal "w"]) None))) = 0%Z /\
  cd_spec_exit enter_no_a ["a/.."] (mkDirState None []) (mkFs (Some [RootDir; Normal "w"]) None)
    = 1%Z.
Proof. repeat split; reflexivity. Qed.

(** C8 (amended).  [cd] reads the working directory first and exits with 1,
    changing nothing, when that fails.  Its target is [HOME] with no
    argument (exit 1 when there is none), [previous_dir] for [-] (exit 1
    when unset), and otherwise [expand_home] of the argument: tilde
    expansion followed by lexical normalisation of [.] and [..].  When the
    target can be entered the exit code is 0, [previous_dir] becomes the old
    working directory and [dir_stack] is untouched; when it cannot, the exit
    code is 1 and nothing changes. *)
Theorem cd_contract (enter : Path -> Path -> option Path)
    (args : list string) (st : DirState) (fs : Fs) :
  cd_runner enter args st fs =
  match cwd fs with
  | None => (1%Z, st, fs)
  | Some cur =>
      let target :=
        match args with
        | [] => home fs
        | a :: _ => if String.eqb a "-" then previous_dir st else Some (expand_home (home fs) a)
        end in
      match target with
      | None => (1%Z, st, fs)
      | Some t =>
          match enter cur t with
          | Some d => (0%Z, mkDirState (Some cur) (dir_stack st), mkFs (Some d) (home fs))
          | None => (1%Z, st, fs)
          end
      end
  end.
Proof.
  unfold cd_runner, cd_run, set_current_dir.
  destruct (cwd fs) as [cur|]; [|reflexivity].
  destruct args as [|a rest].
  - destruct (home fs); [|reflexivity]. destruct (enter cur _); reflexivity.
  - destruct (String.eqb a "-").
    + destruct (previous_dir st); [|reflexivity]. destruct (enter cur _); reflexivity.
    + destruct (enter cur _); reflexivity.
Qed.

End CdClaims.

Module ParserClaims.
Import Ast Parser.
Local Open Scope list_scope.

Lemma parse_pipeline_expr_foreground s rest p :
  parse_pipeline_expr s = Some (rest, p) -> background p = false.
Proof.
  unfold parse_pipeline_expr.
  destruct (multispace0 s) as [[input ws]|]; [|discriminate].
  match goal with |- (let '(_, _) := ?m in _) = _ -> _ => destruct m as [r0 neg] end.
  destruct (parse_single_command r0) as [[rest1 first]|]; [|discriminate].
  destruct (pipe_loop _ rest1 [first]) as [rest2 cmds].
  intros [= _ <-]. reflexivity.
Qed.

Lemma entries_loop_foreground fuel rest es :
  Forall (fun e => background (pipeline e) = false) es ->
  Forall (fun e => background (pipeline e) = false) (entries_loop fuel rest es).
Proof.
  revert rest es. induction fuel as [|f IH]; intros rest es Hes; simpl; [exact Hes|].
  destruct (String.eqb (trim rest) EmptyString); [exact Hes|].
  destruct (parse_connector rest) as [[after_conn conn]|]; [|exact Hes].
  destruct (parse_pipeline_expr after_conn) as [[after_pipeline p]|] eqn:Hp; [|exact Hes].
  apply IH. apply Forall_app. split; [exact Hes|].
  constructor; [|constructor]. simpl. exact (parse_pipeline_expr_foreground _ _ _ Hp).
Qed.

(** C4 (code bug).  No parsed pipeline is ever marked background:
    [parse_pipeline_expr] always builds [background = false], and a
    trailing [&] is read only by [parse_connector], as the connector [Amp]
    of a following entry.  So [sleep 60 &] parses to the single foreground
    pipeline [sleep 60] (the [&] vanishes, as no pipeline follows it), and
    in [sleep 60 & echo hi] the first pipeline is foreground as well. *)
Theorem parse_trailing_amp_foreground :
  (forall (vars : gmap string string) (input : string),
     match parse_input vars input with
     | Some es => Forall (fun e => background (pipeline e) = false) es
     | None => True
     end) /\
  parse_input ∅ "sleep 60 &" =
    Some [mkEntry None (mkPipeline [mkCommand [] (Some "sleep") [mkArg "60" false] []] false false)] /\
  parse_input ∅ "sleep 60 & echo hi" =
    Some [mkEntry None (mkPipeline [mkCommand [] (Some "sleep") [mkArg "60" false] []] false false);
          mkEntry (Some Amp) (mkPipeline [mkCommand [] (Some "echo") [mkArg "hi" false] []] false false)].
Proof.
  split; [|split; vm_compute; reflexivity].
  intros vars input. unfold parse_input.
  destruct (_ || _); [exact I|].
  destruct (parse_pipeline_expr _) as [[after_first first]|] eqn:Hp; [|exact I].
  pose proof (entries_loop_foreground (String.length after_first) after_first
                [mkEntry None first]) as H.
  destruct (entries_loop _ _ _); [exact I|].
  apply H. constructor; [|constructor]. exact (parse_pipeline_expr_foreground _ _ _ Hp).
Qed.

End ParserClaims.

Module ListClaims.
Import Ast Engine ListSpec.

Section Lists.
Variable glob : string -> option (list (option string)).
Variable is_builtin : string -> bool.
Variable run_builtin : string -> list string -> World -> ExecutionResult * Z * World.
Variable open_ok : Redirect -> bool.
Variable spawn_ok : string -> bool.

Lemma skip_entry_spec c lc : skip_entry c lc = true <-> spec_skip c lc.
Proof.
  destruct c as [[| | |]|]; simpl; try (split; [discriminate|tauto]).
  - rewrite negb_true_iff, Z.eqb_neq. tauto.
  - rewrite Z.eqb_eq. tauto.
Qed.

Lemma execute_entries_sound lc es w r w' :
  execute_entries glob is_builtin run_builtin open_ok spawn_ok lc es w = (r, w') ->
  list_eval (execute glob is_builtin run_builtin open_ok spawn_ok) lc es w r w'.
Proof.
  revert lc w. induction es as [|e rest IH]; intros lc w; simpl.
  - intros [= <- <-]. constructor.
  - destruct (skip_entry (connector e) lc) eqn:Hs.
    + intros H. apply LE_skip; [by apply skip_entry_spec|]. by apply IH.
    + assert (Hn : ~ spec_skip (connector e) lc).
      { rewrite <- skip_entry_spec, Hs. discriminate. }
      destruct (execute _ _ _ _ _ (pipeline e) w) as [[res code] w1] eqn:He.
      destruct res.
      * intros H. eapply LE_run; [exact Hn|exact He|]. by apply IH.
      * intros [= <- <-]. eapply LE_exit; [exact Hn|exact He].
Qed.

Lemma execute_entries_complete lc es w r w' :
  list_eval (execute glob is_builtin run_builtin open_ok spawn_ok) lc es w r w' ->
  execute_entries glob is_builtin run_builtin open_ok spawn_ok lc es w = (r, w').
Proof.
  induction 1 as [lc w|lc e rest w r w' Hs _ IH|lc e rest w code w' Hn He
                 |lc e rest w code w1 r w' Hn He _ IH]; simpl.
  - reflexivity.
  - apply skip_entry_spec in Hs. by rewrite Hs.
  - destruct (skip_entry (connector e) lc) eqn:Hs;
      [apply skip_entry_spec in Hs; contradiction|]. by rewrite He.
  - destruct (skip_entry (connector e) lc) eqn:Hs;
      [apply skip_entry_spec in Hs; contradiction|]. by rewrite He.
Qed.

(** C1.  [execute_list] starts with last code 0, and from any last code
    [execute_entries] runs a command list exactly as the spec's evaluation
    [list_eval] does: left to right, skipping an entry iff its connector is
    [And] with a non-zero last code or [Or] with last code 0 ([None], [Semi]
    and [Amp] are never skipped), keeping the last code over a skipped
    entry, taking the code of each executed pipeline, and stopping exactly
    at the first executed pipeline that returns [Exit]. *)
Theorem execute_list_connectors :
  (forall entries w,
     execute_list glob is_builtin run_builtin open_ok spawn_ok entries w =
     execute_entries glob is_builtin run_builtin open_ok spawn_ok 0%Z entries w) /\
  (forall lc entries w r w',
     execute_entries glob is_builtin run_builtin open_ok spawn_ok lc entries w = (r, w') <->
     list_eval (execute glob is_builtin run_builtin open_ok spawn_ok) lc entries w r w').
Proof.
  split; [reflexivity|].
  intros lc entries w r w'. split.
  - apply execute_entries_sound.
  - apply execute_entries_complete.
Qed.

End Lists.

End ListClaims.

Module JobIdClaims.
Import Ast Jobs Engine Repl.
Local Open Scope list_scope.

Lemma shrinks_refl w : shrinks w w.
Proof. repeat split; auto. Qed.

Lemma shrinks_trans w1 w2 w3 : shrinks w1 w2 -> shrinks w2 w3 -> shrinks w1 w3.
Proof.
  intros [H1 [H2 H3]] [G1 [G2 G3]]. repeat split; [congruence|congruence|auto].
Qed.

Lemma inv_shrinks w w' : job_inv w -> shrinks w w' -> job_inv w'.
Proof.
  intros [Hk [Hl Hs]] [E1 [E2 E3]]. unfold job_inv. rewrite E1, E2. auto.
Qed.

Lemma shrinks_set_jobs w js :
  (forall k, is_Some (js !! k) -> is_Some (jobs (shell w) !! k)) -> shrinks w (set_jobs w js).
Proof. intros H. repeat split; auto. Qed.

Lemma shrinks_update_pid_state w p st : shrinks w (update_pid_state w p st).
Proof.
  apply shrinks_set_jobs. intros k. rewrite lookup_fmap. apply fmap_is_Some.
Qed.

Lemma shrinks_waitpid w st w' : waitpid w = Some (st, w') -> shrinks w w'.
Proof.
  unfold waitpid. destruct (wait_queue w); [discriminate|].
  intros [= _ <-]. repeat split; auto.
Qed.

Lemma shrinks_apply_status w st : shrinks w (apply_status w st).
Proof.
  destruct st; simpl; try apply shrinks_update_pid_state. apply shrinks_refl.
Qed.

Lemma shrinks_mark_running_done w j c : shrinks w (mark_running_done w j c).
Proof.
  apply shrinks_set_jobs. intros k. rewrite lookup_alter_is_Some. auto.
Qed.

Lemma shrinks_wait_loop fuel j fg lc w : shrinks w (wait_loop fuel j fg lc w).2.
Proof.
  revert lc w. induction fuel as [|f IH]; intros lc w; simpl;
    (destruct (jobs (shell w) !! j) as [job|] eqn:Hj; [|apply shrinks_refl]);
    (destruct (is_stopped job); [apply shrinks_refl|]);
    (destruct (is_done job);
     [destruct fg; simpl; [|apply shrinks_refl];
      apply shrinks_set_jobs; intros k; rewrite lookup_delete_is_Some; tauto|]);
    destruct fg; try apply shrinks_refl.
  destruct (waitpid w) as [[st w']|] eqn:Hw.
  - eapply shrinks_trans; [eapply shrinks_waitpid, Hw|].
    eapply shrinks_trans; [apply shrinks_apply_status|]. apply IH.
  - eapply shrinks_trans; [apply shrinks_mark_running_done|]. apply IH.
Qed.

Lemma shrinks_wait_for_job j w fg : shrinks w (wait_for_job j w fg).2.
Proof.
  unfold wait_for_job. destruct (_ && _); [apply shrinks_refl|]. apply shrinks_wait_loop.
Qed.

Lemma shrinks_drain n w : shrinks w (drain n w).
Proof.
  revert w. induction n as [|n IH]; intros w; simpl; [apply shrinks_refl|].
  destruct (waitpid w) as [[st w']|] eqn:Hw; [|apply shrinks_refl].
  eapply shrinks_trans; [eapply shrinks_waitpid, Hw|].
  eapply shrinks_trans; [apply shrinks_apply_status|]. apply IH.
Qed.

Lemma shrinks_update_jobs n w : shrinks w (update_jobs n w).
Proof.
  unfold update_jobs. eapply shrinks_trans; [apply shrinks_drain|].
  apply shrinks_set_jobs. intros k [x Hx].
  apply map_lookup_filter_Some in Hx as [Hx _]. eauto.
Qed.

Lemma StronglySorted_snoc {A} (R : A -> A -> Prop) l x :
  StronglySorted R l -> Forall (fun y => R y x) l -> StronglySorted R (l ++ [x]).
Proof.
  induction l as [|a l IH]; intros Hs Hf; simpl.
  - repeat constructor.
  - inversion Hs as [|? ? Hs' Ha]; subst. inversion Hf as [|? ? Hax Hf']; subst.
    constructor; [by apply IH|]. apply Forall_app. split; [exact Ha|]. by constructor.
Qed.

Lemma inv_register_job p leader procs w : job_inv w -> job_inv (register_job p leader procs w).2.
Proof.
  intros [Hk [Hl Hs]]. unfold register_job, job_inv; simpl.
  set (n := next_job_id (shell w)) in *.
  assert (Hfree : jobs (shell w) !! n = None).
  { destruct (jobs (shell w) !! n) eqn:E; [|reflexivity].
    specialize (Hk n (ltac:(rewrite E; eauto))). lia. }
  split; [|split].
  - intros k. destruct (decide (k = n)) as [->|Hne]; [lia|].
    rewrite lookup_insert_ne by congruence. intros H. specialize (Hk k H). lia.
  - apply Forall_app. split.
    + eapply Forall_impl; [exact Hl|]. simpl. intros e [He1 He2]. split; [lia|exact He2].
    + constructor; [|constructor]. simpl. split; [lia|].
      rewrite Hfree. apply bool_decide_eq_false. intros [? H]; discriminate.
  - rewrite map_app. simpl. apply StronglySorted_snoc; [exact Hs|].
    apply Forall_map. eapply Forall_impl; [exact Hl|]. simpl. intros e [He1 _]. exact He1.
Qed.

Section Engine_inv.
Variable glob : string -> option (list (option string)).
Variable is_builtin : string -> bool.
Variable run_builtin : string -> list string -> World -> ExecutionResult * Z * World.
Variable open_ok : Redirect -> bool.
Variable spawn_ok : string -> bool.
Hypothesis builtin_shrinks :
  forall n args w r code w', run_builtin n args w = (r, code, w') -> shrinks w w'.

Lemma shrinks_bump_pid w n : shrinks w (mkWorld (shell w) (wait_queue w) n (job_log w)).
Proof. repeat split; auto. Qed.

Lemma shrinks_apply_assignments w asg : shrinks w (apply_assignments w asg).
Proof. repeat split; auto. Qed.

Lemma inv_execute_simple p cmd w :
  job_inv w -> job_inv (execute_simple glob is_builtin run_builtin open_ok spawn_ok p cmd w).2.
Proof.
  intros Hi. unfold execute_simple.
  destruct (resolve_redirects (redirects cmd)) as [sin sout].
  destruct (name cmd) as [n|].
  - destruct (is_builtin n).
    + destruct (_ && _); [exact Hi|].
      destruct (run_builtin n _ w) as [[r c] w'] eqn:Hr.
      eapply inv_shrinks; [exact Hi|]. eapply builtin_shrinks, Hr.
    + destruct (negb (open_redirect open_ok sin)); [exact Hi|].
      destruct (negb (open_redirect open_ok sout)); [exact Hi|].
      destruct (spawn_ok n); [|exact Hi].
      destruct (register_job p _ _ _) as [job_id w2] eqn:Hreg.
      assert (H2 : job_inv w2).
      { change w2 with (job_id, w2).2. rewrite <- Hreg. apply inv_register_job.
        eapply inv_shrinks; [exact Hi|]. apply shrinks_bump_pid. }
      destruct (background p); [exact H2|].
      destruct (wait_for_job job_id w2 true) as [code w3] eqn:Hw.
      eapply inv_shrinks; [exact H2|].
      change w3 with (code, w3).2. rewrite <- Hw. apply shrinks_wait_for_job.
  - destruct (negb _); [|destruct (negb _)]; simpl;
      (eapply inv_shrinks; [exact Hi|apply shrinks_apply_assignments]).
Qed.

Lemma shrinks_spawn_loop i last cmds fp procs w :
  match spawn_loop open_ok spawn_ok i last cmds fp procs w with
  | Spawned _ _ w' => shrinks w w'
  | Aborted _ _ w' => shrinks w w'
  end.
Proof.
  revert i fp procs w. induction cmds as [|c rest IH]; intros i fp procs w; simpl;
    [apply shrinks_refl|].
  destruct (name c) as [n|]; [|apply IH].
  destruct (String.eqb n "exit"); [apply shrinks_refl|].
  destruct (resolve_redirects (redirects c)) as [sin sout].
  destruct (_ && _); [apply shrinks_refl|].
  destruct (_ && _); [apply shrinks_refl|].
  destruct (spawn_ok n); [|apply shrinks_refl].
  match goal with |- match spawn_loop _ _ ?i' _ ?cs ?fp' ?ps' ?w' with _ => _ end =>
    specialize (IH i' fp' ps' w') end.
  destruct (spawn_loop _ _ _ _ _ _ _ _);
    (eapply shrinks_trans; [apply (shrinks_bump_pid w (S (next_pid w)))|exact IH]).
Qed.

Lemma inv_execute p w :
  job_inv w -> job_inv (execute glob is_builtin run_builtin open_ok spawn_ok p w).2.
Proof.
  intros Hi. unfold execute. cbn [commands negated background].
  set (cmds := map _ (commands p)).
  set (p' := mkPipeline cmds (negated p) (background p)).
  assert (Hmulti : job_inv
    (match spawn_loop open_ok spawn_ok 0 (length cmds - 1) cmds 0 [] w with
     | Aborted r code w' => (r, code, w')
     | Spawned first_pgid procs w1 =>
         let '(job_id, w2) := register_job p' first_pgid procs w1 in
         let '(last_code, w3) :=
           if background p then (0%Z, w2) else wait_for_job job_id w2 true in
         (KeepRunning, negate (negated p) last_code, w3)
     end).2).
  { pose proof (shrinks_spawn_loop 0 (length cmds - 1) cmds 0 [] w) as Hsp.
    destruct (spawn_loop _ _ _ _ _ _ _ _) as [fp procs w1|r code w1].
    - destruct (register_job p' fp procs w1) as [job_id w2] eqn:Hreg.
      assert (H2 : job_inv w2).
      { change w2 with (job_id, w2).2. rewrite <- Hreg. apply inv_register_job.
        eapply inv_shrinks; [exact Hi|exact Hsp]. }
      destruct (background p); [exact H2|].
      destruct (wait_for_job job_id w2 true) as [code w3] eqn:Hw.
      eapply inv_shrinks; [exact H2|].
      change w3 with (code, w3).2. rewrite <- Hw. apply shrinks_wait_for_job.
    - eapply inv_shrinks; [exact Hi|exact Hsp]. }
  destruct cmds as [|c [|c2 rest]] eqn:Ec; try exact Hmulti.
  pose proof (inv_execute_simple p' c w Hi) as Hs.
  destruct (execute_simple _ _ _ _ _ p' c w) as [[r code] w'] . exact Hs.
Qed.

Lemma inv_execute_entries lc es w r w' :
  job_inv w ->
  execute_entries glob is_builtin run_builtin open_ok spawn_ok lc es w = (r, w') ->
  job_inv w'.
Proof.
  revert lc w. induction es as [|e rest IH]; intros lc w Hi; simpl.
  - intros [= _ <-]. exact Hi.
  - destruct (skip_entry (connector e) lc); [by apply IH|].
    pose proof (inv_execute (pipeline e) w Hi) as He.
    destruct (execute _ _ _ _ _ (pipeline e) w) as [[res code] w1].
    destruct res; [by apply IH|]. intros [= _ <-]. exact He.
Qed.

Lemma inv_step w w' :
  job_inv w -> engine_step glob is_builtin run_builtin open_ok spawn_ok w w' -> job_inv w'.
Proof.
  intros Hi Hs. destruct Hs as [entries w r w' H|ready w|job_id fg w code w' H|q w].
  - eapply inv_execute_entries; [exact Hi|exact H].
  - eapply inv_shrinks; [exact Hi|]. apply shrinks_update_jobs.
  - eapply inv_shrinks; [exact Hi|].
    change w' with (code, w').2. rewrite <- H. apply shrinks_wait_for_job.
  - eapply inv_shrinks; [exact Hi|]. repeat split; auto.
Qed.

Lemma inv_steps w w' :
  job_inv w -> rtc (engine_step glob is_builtin run_builtin open_ok spawn_ok) w w' -> job_inv w'.
Proof.
  intros Hi Hs. induction Hs as [w|w1 w2 w3 H12 _ IH]; [exact Hi|].
  apply IH. eapply inv_step; [exact Hi|exact H12].
Qed.


End Engine_inv.

Lemma step_execute_list glob is_builtin run_builtin open_ok spawn_ok entries w :
  engine_step glob is_builtin run_builtin open_ok spawn_ok w
    (execute_list glob is_builtin run_builtin open_ok spawn_ok entries w).2.
Proof.
  eapply (ES_list _ _ _ _ _ entries w
            (execute_list glob is_builtin run_builtin open_ok spawn_ok entries w).1).
  apply surjective_pairing.
Qed.

Lemma noop_builtin_shrinks n args w r code w' :
  Fixtures.noop_builtin n args w = (r, code, w') -> shrinks w w'.
Proof. intros [= _ _ <-]. apply shrinks_refl. Qed.


End JobIdClaims.

Module PipelineClaims.
Import Ast Jobs Engine Predicates.
Local Open Scope list_scope.

(** C2 (failing input).  In [! cat | nosuch] the last command is not
    found: its code is 127, which negation should turn into 0, but the
    multi-command path of [execute] returns the 127 of the failed spawn
    early, skipping the negation at the end of the function; the
    single-command [! nosuch] negates the same 127 and returns 0. *)
Lemma negated_pipeline_counterexample :
  (execute Fixtures.no_glob Fixtures.no_builtin Fixtures.noop_builtin Fixtures.all_open
     Fixtures.spawn_known
     (mkPipeline [Fixtures.simple_cmd "cat" []; Fixtures.simple_cmd "nosuch" []] true false)
     Fixtures.world_fresh).1 = (KeepRunning, 127%Z) /\
  negate true 127 = 0%Z /\
  (execute Fixtures.no_glob Fixtures.no_builtin Fixtures.noop_builtin Fixtures.all_open
     Fixtures.spawn_known (mkPipeline [Fixtures.simple_cmd "nosuch" []] true false)
     Fixtures.world_fresh).1 = (KeepRunning, 0%Z).
Proof. repeat split; vm_compute; reflexivity. Qed.



Lemma nodup_fst_code (target : list (nat * Z)) p c c' :
  NoDup (map fst target) -> In (p, c) target -> In (p, c') target -> c = c'.
Proof.
  induction target as [|[a b] t IH]; simpl; [tauto|].
  intros Hnd H1 H2. inversion Hnd as [|? ? Hnin Hnd']; subst.
  destruct H1 as [E1|H1], H2 as [E2|H2].
  - congruence.
  - exfalso. apply Hnin. injection E1 as -> _. apply list_elem_of_In. change p with (p, c').1. by apply in_map.
  - exfalso. apply Hnin. injection E2 as -> _. apply list_elem_of_In. change p with (p, c).1. by apply in_map.
  - by apply IH.
Qed.

Lemma wait_inv_exit ps target p c q :
  Forall (fun pc => pc.1 = p -> pc.2 = c) target ->
  wait_inv ps target (WExited p c :: q) ->
  wait_inv (map (set_pstate p (Done c)) ps) target q.
Proof.
  intros Hf H. unfold wait_inv in *. induction H as [|pr pc ps ts [Hpid Hst] _ IH]; simpl;
    [constructor|].
  inversion Hf as [|? ? Hpc Hf']; subst. constructor; [|by apply IH].
  unfold set_pstate. destruct (Nat.eqb (pid pr) p) eqn:E.
  - apply Nat.eqb_eq in E. simpl. split; [exact Hpid|]. left. f_equal. symmetry.
    apply Hpc. congruence.
  - apply Nat.eqb_neq in E. split; [exact Hpid|].
    destruct Hst as [Hd|[Hr [Heq|Hin]]]; [by left| |by right].
    injection Heq as Hp _. exfalso. apply E. rewrite Hpid. symmetry. exact Hp.
Qed.

Lemma wait_inv_not_stopped ps target q :
  wait_inv ps target q -> existsb (fun p => is_stopped_state (pstate p)) ps = false.
Proof.
  unfold wait_inv. induction 1 as [|pr pc ps ts [_ Hst] _ IH]; simpl; [reflexivity|].
  rewrite IH, orb_false_r. destruct Hst as [->|[-> _]]; reflexivity.
Qed.

Lemma wait_inv_empty_done ps target :
  wait_inv ps target [] -> Forall2 (fun pr pc => pstate pr = Done pc.2) ps target.
Proof.
  unfold wait_inv. induction 1 as [|pr pc ps ts [_ Hst] _ IH]; constructor; [|exact IH].
  destruct Hst as [H|[_ []]]. exact H.
Qed.

Lemma wait_inv_done_all ps target q :
  wait_inv ps target q -> forallb (fun p => is_done_state (pstate p)) ps = true ->
  Forall2 (fun pr pc => pstate pr = Done pc.2) ps target.
Proof.
  unfold wait_inv. induction 1 as [|pr pc ps ts [_ Hst] _ IH]; simpl; [constructor|].
  rewrite andb_true_iff. intros [Hd Hr]. constructor; [|by apply IH].
  destruct Hst as [H|[H _]]; [exact H|]. rewrite H in Hd. discriminate.
Qed.

Lemma done_last_code ps target :
  Forall2 (fun pr pc => pstate pr = Done pc.2) ps target -> target <> [] ->
  match vec_last ps with
  | Some p => match pstate p with Done c => c | _ => 0%Z end
  | None => 0%Z
  end = (List.last target (0, 0%Z)).2.
Proof.
  induction 1 as [|pr pc ps ts Hst H IH]; [congruence|]. intros _.
  destruct H as [|pr' pc' ps' ts' Hst' H'].
  - simpl. by rewrite Hst.
  - change (vec_last (pr :: pr' :: ps')) with (vec_last (pr' :: ps')).
    change (List.last (pc :: pc' :: ts') (0, 0%Z)) with (List.last (pc' :: ts') (0, 0%Z)).
    apply IH. discriminate.
Qed.

(** [wait_for_job]'s loop on a job all of whose running processes have
    their exit queued ends with the code of the last process. *)
Lemma wait_loop_exits target job_id fuel lc w j :
  jobs (shell w) !! job_id = Some j ->
  wait_inv (processes j) target (wait_queue w) ->
  Forall (fun st => exists p c, st = WExited p c /\ In (p, c) target) (wait_queue w) ->
  NoDup (map fst target) ->
  target <> [] ->
  length (wait_queue w) < fuel ->
  exists w', wait_loop fuel job_id true lc w = ((List.last target (0, 0%Z)).2, w').
Proof.
  revert lc w j. induction fuel as [|f IH]; intros lc w j Hj Hinv Hq Hnd Hne Hlen; [lia|].
  simpl. rewrite Hj.
  assert (Hns : is_stopped j = false).
  { unfold is_stopped. rewrite (wait_inv_not_stopped _ _ _ Hinv). apply andb_false_r. }
  rewrite Hns.
  destruct (is_done j) eqn:Hd.
  - eexists. f_equal. unfold state. rewrite Hd.
    apply done_last_code; [|exact Hne]. eapply wait_inv_done_all; [exact Hinv|exact Hd].
  - simpl. unfold waitpid.
    destruct (wait_queue w) as [|st rest] eqn:Eq.
    + exfalso. apply wait_inv_empty_done in Hinv.
      assert (Hd' : is_done j = true).
      { unfold is_done. clear -Hinv. induction Hinv as [|pr pc ps ts H _ IH]; simpl;
          [reflexivity|]. by rewrite H. }
      congruence.
    + inversion Hq as [|? ? [p [c [-> Hin]]] Hq']; subst.
      simpl in Hlen.
      set (w1 := mkWorld (shell w) rest (next_pid w) (job_log w)).
      apply (IH lc (apply_status w1 (WExited p c)) (map_processes (set_pstate p (Done c)) j)).
      * simpl. unfold update_pid_state, set_jobs. simpl. rewrite lookup_fmap. by rewrite Hj.
      * simpl. apply wait_inv_exit; [|exact Hinv].
        apply Forall_forall. intros [p' c'] Hin' E. simpl in *. subst p'.
        eapply nodup_fst_code; [exact Hnd|apply list_elem_of_In; exact Hin'|exact Hin].
      * exact Hq'.
      * exact Hnd.
      * exact Hne.
      * simpl. lia.
Qed.

Lemma zip_with_exits (l1 : list nat) (l2 : list Z) :
  zip_with WExited l1 l2 = map (fun pc => WExited pc.1 pc.2) (combine l1 l2).
Proof.
  revert l2. induction l1 as [|a l1 IH]; intros [|b l2]; simpl; try reflexivity.
  by rewrite IH.
Qed.

Lemma map_fst_combine {A B} (l1 : list A) (l2 : list B) :
  length l1 = length l2 -> map fst (combine l1 l2) = l1.
Proof.
  revert l2. induction l1 as [|a l1 IH]; intros [|b l2]; simpl; try discriminate; [reflexivity|].
  intros [= H]. by rewrite IH.
Qed.

Lemma last_combine_snd (l1 : list nat) (l2 : list Z) :
  length l1 = length l2 -> (List.last (combine l1 l2) (0, 0%Z)).2 = List.last l2 0%Z.
Proof.
  revert l2. induction l1 as [|a l1 IH]; intros [|b l2]; simpl; try discriminate; [reflexivity|].
  intros [= H]. destruct l1 as [|a' l1'], l2 as [|b' l2']; simpl in H; try discriminate;
    [reflexivity|].
  rewrite <- IH by (simpl; lia). reflexivity.
Qed.

Lemma procs_of_length pid0 cmds : length (procs_of pid0 cmds) = length cmds.
Proof. revert pid0. induction cmds; intros; simpl; auto. Qed.

(** Freshly spawned processes, each with its exit queued in [q]. *)
Lemma wait_inv_init pid0 cmds codes q :
  length codes = length cmds ->
  (forall pc, In pc (combine (seq pid0 (length cmds)) codes) -> In (WExited pc.1 pc.2) q) ->
  wait_inv (procs_of pid0 cmds) (combine (seq pid0 (length cmds)) codes) q.
Proof.
  unfold wait_inv. revert pid0 codes. induction cmds as [|c r IH]; intros pid0 [|k ks];
    simpl; try discriminate; [constructor|].
  intros [= Hl] H. constructor.
  - simpl. split; [reflexivity|]. right. split; [reflexivity|]. apply (H (pid0, k)). auto.
  - apply IH; [exact Hl|]. intros pc Hin. apply H. auto.
Qed.

Lemma open_redirect_true (open_ok : Redirect -> bool) r :
  (forall r, open_ok r = true) -> open_redirect open_ok r = true.
Proof. intros H. destruct r; simpl; auto. Qed.


Lemma spawn_loop_all (open_ok : Redirect -> bool) (is_builtin spawn_ok : string -> bool)
    i last cmds fp procs w :
  0 < i -> (forall r, open_ok r = true) -> Forall (good_cmd is_builtin spawn_ok) cmds ->
  spawn_loop open_ok spawn_ok i last cmds fp procs w =
  Spawned fp (procs ++ procs_of (next_pid w) cmds)
    (mkWorld (shell w) (wait_queue w) (next_pid w + length cmds) (job_log w)).
Proof.
  revert i procs w. induction cmds as [|c rest IH]; intros i procs w Hi Hopen Hg; simpl.
  - rewrite app_nil_r, Nat.add_0_r. by destruct w.
  - inversion Hg as [|? ? [n [Hn [Hx [_ Hs]]]] Hg']; subst. rewrite Hn.
    apply String.eqb_neq in Hx. rewrite Hx.
    destruct (resolve_redirects (redirects c)) as [sin sout].
    rewrite !open_redirect_true by exact Hopen. simpl. rewrite !andb_false_r, Hs.
    destruct (Nat.eqb i 0) eqn:Ei; [apply Nat.eqb_eq in Ei; lia|].
    rewrite IH by (auto || lia). simpl. rewrite <- app_assoc. simpl.
    do 2 f_equal. lia.
Qed.

Lemma spawn_loop_from0 (open_ok : Redirect -> bool) (is_builtin spawn_ok : string -> bool)
    last cmds fp w :
  cmds <> [] -> (forall r, open_ok r = true) -> Forall (good_cmd is_builtin spawn_ok) cmds ->
  spawn_loop open_ok spawn_ok 0 last cmds fp [] w =
  Spawned (next_pid w) (procs_of (next_pid w) cmds)
    (mkWorld (shell w) (wait_queue w) (next_pid w + length cmds) (job_log w)).
Proof.
  intros Hne Hopen Hg. destruct cmds as [|c rest]; [congruence|].
  inversion Hg as [|? ? [n [Hn [Hx [_ Hs]]]] Hg']; subst.
  simpl. rewrite Hn. apply String.eqb_neq in Hx. rewrite Hx.
  destruct (resolve_redirects (redirects c)) as [sin sout].
  rewrite !open_redirect_true by exact Hopen. simpl. rewrite Hs.
  rewrite (spawn_loop_all open_ok is_builtin spawn_ok) by (auto || lia). simpl.
  rewrite ?Hn, andb_false_r. do 2 f_equal. lia.
Qed.

Section Exits.
Variable glob : string -> option (list (option string)).
Variable is_builtin : string -> bool.
Variable run_builtin : string -> list string -> World -> ExecutionResult * Z * World.
Variable open_ok : Redirect -> bool.
Variable spawn_ok : string -> bool.

Lemma wait_registered p' fp pid0 cmds w1 codes :
  length codes = length cmds -> codes <> [] ->
  Permutation (wait_queue w1) (zip_with WExited (seq (pid0) (length codes)) codes) ->
  exists w3,
    wait_for_job (register_job p' fp (procs_of (pid0) cmds) w1).1
                 (register_job p' fp (procs_of (pid0) cmds) w1).2 true
    = (List.last codes 0%Z, w3).
Proof.
  intros Hl Hne Hperm.
  set (target := combine (seq (pid0) (length cmds)) codes).
  assert (Hfst : map fst target = seq (pid0) (length cmds)).
  { apply map_fst_combine. by rewrite length_seq. }
  assert (Hq : Permutation (wait_queue w1) (map (fun pc => WExited pc.1 pc.2) target)).
  { unfold target. rewrite <- zip_with_exits, <- Hl. exact Hperm. }
  unfold wait_for_job, register_job. cbn [fst snd shell jobs].
  rewrite lookup_insert_eq, (bool_decide_eq_true_2 (is_Some (Some _))) by eauto.
  cbn [negb andb wait_queue].
  unfold target in *.
  rewrite <- (last_combine_snd (seq (pid0) (length cmds)) codes)
    by (rewrite length_seq; symmetry; exact Hl).
  eapply (wait_loop_exits _ _ _ _ _
            (mkJob _ fp _ (procs_of (pid0) cmds) false)).
  - simpl. apply lookup_insert_eq.
  - simpl. apply wait_inv_init; [exact Hl|].
    intros pc Hin. eapply Permutation_in; [symmetry; exact Hq|].
    by apply (in_map (fun pc => WExited pc.1 pc.2)).
  - simpl. apply Forall_forall. intros st Hst. apply list_elem_of_In in Hst.
    eapply Permutation_in in Hst; [|exact Hq].
    apply in_map_iff in Hst as [[p c] [<- Hin]]. eauto.
  - rewrite Hfst. apply NoDup_ListNoDup. apply seq_NoDup.
  - destruct cmds, codes; simpl in *; congruence.
  - simpl. lia.
Qed.

(** C2.  A pipeline run in the foreground whose commands, after alias
    expansion, are all external commands that spawn (its redirections
    open) ends, once every spawned process has exited, with the exit code of
    the last command, inverted by [negated] (0 becomes 1 and any other code
    0), for one command as for several.  The exits may be reported in any
    order.  Outside these preconditions the multi-command path returns 127
    for a command that cannot be spawned and 1 for a redirection that cannot
    be opened without applying the negation (see
    [negated_pipeline_counterexample]). *)
Theorem execute_exit_code (p : Pipeline) (w : World) (codes : list Z) :
  let cmds := map (fun c => expand_alias c (aliases (shell w))) (commands p) in
  (forall r, open_ok r = true) ->
  Forall (good_cmd is_builtin spawn_ok) cmds ->
  background p = false ->
  length codes = length cmds ->
  codes <> [] ->
  Permutation (wait_queue w) (zip_with WExited (seq (next_pid w) (length codes)) codes) ->
  exists w',
    execute glob is_builtin run_builtin open_ok spawn_ok p w =
    (KeepRunning, negate (negated p) (List.last codes 0%Z), w').
Proof.
  intros cmds Hopen Hg Hbg Hl Hne Hperm.
  unfold execute. cbv zeta. cbn [commands negated background].
  change (map (fun c => expand_alias c (aliases (shell w))) (commands p)) with cmds.
  rewrite Hbg.
  clearbody cmds.
  destruct cmds as [|c [|c2 rest]].
  - destruct codes; simpl in *; congruence.
  - inversion Hg as [|? ? [n [Hn [Hx [Hb Hs]]]] _]; subst.
    unfold execute_simple.
    destruct (resolve_redirects (redirects c)) as [sin sout].
    rewrite Hn, Hb, !open_redirect_true by exact Hopen. cbn [negb]. rewrite Hs.
    cbn [background negated].
    assert (Hproc : [mkProcess (next_pid w) n Running] = procs_of (next_pid w) [c]).
    { simpl. by rewrite Hn. }
    rewrite Hproc.
    destruct (wait_registered (mkPipeline [c] (negated p) false) (next_pid w) (next_pid w) [c]
                (mkWorld (shell w) (wait_queue w) (S (next_pid w)) (job_log w)) codes Hl Hne Hperm)
      as [w3 Hw].
    destruct (register_job _ _ _ _) as [job_id w2]. simpl in Hw. rewrite Hw.
    eexists; reflexivity.
  - rewrite (spawn_loop_from0 open_ok is_builtin spawn_ok) by (auto || discriminate).
    destruct (wait_registered (mkPipeline (c :: c2 :: rest) (negated p) false) (next_pid w)
                (next_pid w) (c :: c2 :: rest)
                (mkWorld (shell w) (wait_queue w) (next_pid w + length (c :: c2 :: rest)) (job_log w))
                codes Hl Hne Hperm) as [w3 Hw].
    destruct (register_job _ _ _ _) as [job_id w2]. simpl in Hw. rewrite Hw.
    eexists; reflexivity.
Qed.

End Exits.

Lemma execute_exit_code_witness :
  exists w',
    execute Fixtures.no_glob Fixtures.no_builtin Fixtures.noop_builtin Fixtures.all_open
      Fixtures.all_spawn
      (mkPipeline [Fixtures.simple_cmd "cat" []; Fixtures.simple_cmd "sort" []] true false)
      (mkWorld (mkShell ∅ ∅ ∅ 1) [WExited 2 3%Z; WExited 1 0%Z] 1 [])
    = (KeepRunning, negate true (List.last [0%Z; 3%Z] 0%Z), w').
Proof.
  apply (execute_exit_code Fixtures.no_glob Fixtures.no_builtin Fixtures.noop_builtin
           Fixtures.all_open Fixtures.all_spawn
           (mkPipeline [Fixtures.simple_cmd "cat" []; Fixtures.simple_cmd "sort" []] true false)
           (mkWorld (mkShell ∅ ∅ ∅ 1) [WExited 2 3%Z; WExited 1 0%Z] 1 []) [0%Z; 3%Z]).
  - intros r. reflexivity.
  - repeat constructor; eexists; (split; [reflexivity|]);
      (split; [discriminate|]); split; reflexivity.
  - reflexivity.
  - reflexivity.
  - discriminate.
  - simpl. apply perm_swap.
Defined.

End PipelineClaims.


Module RedirectFacts.
Import Chars Ast Engine.
Local Open Scope list_scope.

Lemma rfind_None {A} (f : A -> bool) (l : list A) :
  rfind f l = None <-> Forall (fun y => f y = false) l.
Proof.
  induction l as [|x r IH]; simpl.
  - split; auto.
  - rewrite Forall_cons. destruct (rfind f r) eqn:Hr.
    + split; [discriminate|]. intros [_ H]. apply IH in H. congruence.
    + rewrite <- IH. destruct (f x); split; try discriminate; intuition; discriminate.
Qed.

Lemma rfind_Some {A} (f : A -> bool) (l : list A) (x : A) :
  rfind f l = Some x <->
  exists l1 l2, l = l1 ++ x :: l2 /\ f x = true /\ Forall (fun y => f y = false) l2.
Proof.
  induction l as [|y r IH]; simpl.
  - split; [discriminate|]. intros (l1 & l2 & H & _). destruct l1; discriminate.
  - destruct (rfind f r) eqn:Hr.
    + split.
      * intros [= <-]. destruct (proj1 IH eq_refl) as (l1 & l2 & -> & Hf & Hl2).
        exists (y :: l1), l2. auto.
      * intros (l1 & l2 & Heq & Hf & Hl2). destruct l1 as [|z l1]; simpl in Heq;
          injection Heq as <- Heq.
        -- subst r. apply rfind_None in Hl2. congruence.
        -- apply IH. eauto.
    + split.
      * destruct (f y) eqn:Hy; [|discriminate]. intros [= <-].
        exists [], r. repeat split; auto. apply rfind_None; auto.
      * intros (l1 & l2 & Heq & Hf & Hl2). destruct l1 as [|z l1]; simpl in Heq;
          injection Heq as <- Heq.
        -- subst. rewrite Hf. reflexivity.
        -- exfalso. assert (None = Some x) by (apply IH; eauto). discriminate.
Qed.


Lemma is_stdin_kind_iff (r : Redirect) : is_stdin_kind r = true <-> kind r = StdinFrom.
Proof. unfold is_stdin_kind. destruct (kind r); split; congruence. Qed.

Lemma is_stdout_kind_iff (r : Redirect) : is_stdout_kind r = true <-> kind r <> StdinFrom.
Proof. unfold is_stdout_kind. destruct (kind r); split; congruence. Qed.

Lemma not_stdin_kind (r : Redirect) : is_stdin_kind r = false <-> kind r <> StdinFrom.
Proof.
  rewrite <- is_stdin_kind_iff. destruct (is_stdin_kind r); split; congruence.
Qed.

Lemma not_stdout_kind (r : Redirect) : is_stdout_kind r = false <-> kind r = StdinFrom.
Proof.
  unfold is_stdout_kind. destruct (kind r); split; congruence.
Qed.

(** [resolve_redirects] picks, for each side, the LAST redirection of that
    side in the command ([rfind]), and nothing when there is none. *)
Theorem resolve_redirects_last (rs : list Redirect) :
  (forall r, fst (resolve_redirects rs) = Some r <->
     exists l1 l2, rs = l1 ++ r :: l2 /\ kind r = StdinFrom /\
                   Forall (fun y => kind y <> StdinFrom) l2) /\
  (fst (resolve_redirects rs) = None <-> Forall (fun y => kind y <> StdinFrom) rs) /\
  (forall r, snd (resolve_redirects rs) = Some r <->
     exists l1 l2, rs = l1 ++ r :: l2 /\ kind r <> StdinFrom /\
                   Forall (fun y => kind y = StdinFrom) l2) /\
  (snd (resolve_redirects rs) = None <-> Forall (fun y => kind y = StdinFrom) rs).
Proof.
  unfold resolve_redirects; simpl. repeat split.
  - intros H. apply rfind_Some in H as (l1 & l2 & H1 & H2 & H3).
    exists l1, l2. rewrite is_stdin_kind_iff in H2. split; [|split]; auto.
    eapply Forall_impl; [exact H3|]. intros y. apply not_stdin_kind.
  - intros (l1 & l2 & H1 & H2 & H3). apply rfind_Some. exists l1, l2.
    rewrite is_stdin_kind_iff. split; [|split]; auto.
    eapply Forall_impl; [exact H3|]. intros y. apply not_stdin_kind.
  - intros H. apply rfind_None in H.
    eapply Forall_impl; [exact H|]. intros y. apply not_stdin_kind.
  - intros H. apply rfind_None.
    eapply Forall_impl; [exact H|]. intros y. apply not_stdin_kind.
  - intros H. apply rfind_Some in H as (l1 & l2 & H1 & H2 & H3).
    exists l1, l2. rewrite is_stdout_kind_iff in H2. split; [|split]; auto.
    eapply Forall_impl; [exact H3|]. intros y. apply not_stdout_kind.
  - intros (l1 & l2 & H1 & H2 & H3). apply rfind_Some. exists l1, l2.
    rewrite is_stdout_kind_iff. split; [|split]; auto.
    eapply Forall_impl; [exact H3|]. intros y. apply not_stdout_kind.
  - intros H. apply rfind_None in H.
    eapply Forall_impl; [exact H|]. intros y. apply not_stdout_kind.
  - intros H. apply rfind_None.
    eapply Forall_impl; [exact H|]. intros y. apply not_stdout_kind.
Qed.

End RedirectFacts.

Module AliasFacts.
Import Chars Ast Engine.
Local Open Scope list_scope.

Lemma append_empty_str (s : string) : append s EmptyString = s.
Proof. induction s as [|c s IH]; [reflexivity|]. change (String c (append s EmptyString) = String c s). now rewrite IH. Qed.

Lemma append_snoc (a : string) (c : ascii) (r : string) :
  append (append a (String c EmptyString)) r = append a (String c r).
Proof.
  induction a as [|d a IH]; [reflexivity|].
  change (String d (append (append a (String c EmptyString)) r) = String d (append a (String c r))).
  now rewrite IH.
Qed.

Lemma contains_snoc (a : string) (c q : ascii) :
  Glob.contains (append a (String c EmptyString)) q = Glob.contains a q || ascii_eqb c q.
Proof.
  induction a as [|d a IH]; simpl.
  - destruct (ascii_eqb c q); reflexivity.
  - change (ascii_eqb d q || Glob.contains (append a (String c EmptyString)) q =
            (ascii_eqb d q || Glob.contains a q) || ascii_eqb c q).
    rewrite IH. now rewrite orb_assoc.
Qed.

Lemma shell_split_loop_tokens (s : string) :
  forall b cur toks,
  Glob.contains cur "'"%char = false ->
  (forall t, In t toks -> t <> EmptyString /\ Glob.contains t "'"%char = false) ->
  forall t, In t (shell_split_loop s b cur toks) ->
  t <> EmptyString /\ Glob.contains t "'"%char = false.
Proof.
  induction s as [|ch rest IH]; intros b cur toks Hcur Htoks t Ht; simpl in Ht.
  - destruct (String.eqb cur EmptyString) eqn:He; auto.
    apply in_app_or in Ht as [Ht|[<-|[]]]; auto.
    split; auto. intros ->. discriminate.
  - destruct (ascii_eqb ch "'"%char) eqn:Hq; [eapply IH; eauto|].
    destruct ((ascii_eqb ch " "%char || ascii_eqb ch (ascii_of_nat 9)) && negb b).
    + destruct (String.eqb cur EmptyString) eqn:He; [eapply IH; eauto|].
      eapply IH; [| |exact Ht]; [reflexivity|].
      intros t' Ht'. apply in_app_or in Ht' as [Ht'|[<-|[]]]; auto.
      split; auto. intros ->. discriminate.
    + eapply IH; [| |exact Ht]; auto.
      rewrite contains_snoc, Hcur, Hq. reflexivity.
Qed.

(** Every token [shell_split] returns is non-empty and free of single
    quotes: quotes only toggle the quoting mode and are dropped. *)
Theorem shell_split_tokens (s t : string) :
  In t (shell_split s) -> t <> EmptyString /\ Glob.contains t "'"%char = false.
Proof.
  unfold shell_split. intros H. eapply shell_split_loop_tokens; [| |exact H].
  - reflexivity.
  - intros t' [].
Qed.

Lemma shell_split_tokens_witness :
  In "b c" (shell_split "a 'b c'") /\
  ("b c" <> EmptyString /\ Glob.contains "b c" "'"%char = false).
Proof.
  assert (H : In "b c" (shell_split "a 'b c'")) by (vm_compute; right; left; reflexivity).
  split; [exact H|]. exact (shell_split_tokens _ _ H).
Defined.

Lemma shell_split_loop_word (s : string) :
  forall cur toks,
  Glob.contains s " "%char = false -> Glob.contains s (ascii_of_nat 9) = false ->
  Glob.contains s "'"%char = false -> cur <> EmptyString ->
  shell_split_loop s false cur toks = toks ++ [append cur s].
Proof.
  induction s as [|ch rest IH]; intros cur toks Hsp Htab Hq Hcur; simpl in *.
  - rewrite append_empty_str. destruct (String.eqb cur EmptyString) eqn:He; [|reflexivity].
    apply String.eqb_eq in He. contradiction.
  - apply orb_false_iff in Hsp as [Hsp1 Hsp2].
    apply orb_false_iff in Htab as [Htab1 Htab2].
    apply orb_false_iff in Hq as [Hq1 Hq2].
    rewrite Hq1, Hsp1, Htab1. simpl.
    rewrite IH; auto.
    + now rewrite append_snoc.
    + destruct cur; discriminate.
Qed.

(** An alias value that is one word without spaces, tabs or single quotes
    splits into exactly that word. *)
Theorem shell_split_word (s : string) :
  s <> EmptyString ->
  Glob.contains s " "%char = false -> Glob.contains s (ascii_of_nat 9) = false ->
  Glob.contains s "'"%char = false ->
  shell_split s = [s].
Proof.
  destruct s as [|ch rest]; [congruence|]. intros _ Hsp Htab Hq. simpl in *.
  apply orb_false_iff in Hsp as [Hsp1 Hsp2].
  apply orb_false_iff in Htab as [Htab1 Htab2].
  apply orb_false_iff in Hq as [Hq1 Hq2].
  unfold shell_split. simpl. rewrite Hq1, Hsp1, Htab1. simpl.
  rewrite shell_split_loop_word; try discriminate; auto.
Qed.

Lemma shell_split_word_witness :
  ("ls" <> EmptyString /\ Glob.contains "ls" " "%char = false /\
   Glob.contains "ls" (ascii_of_nat 9) = false /\ Glob.contains "ls" "'"%char = false) /\
  shell_split "ls" = ["ls"].
Proof.
  split; [repeat split; discriminate|].
  apply shell_split_word; [discriminate|reflexivity..].
Defined.

(** [expand_alias] keeps the assignments and redirections; the original
    arguments stay, in order, at the end of the new argument list, after
    the extra alias words, which are unquoted, non-empty and free of single
    quotes; the command keeps a name iff it had one; and a command whose
    name is no alias is left as it is. *)
Theorem expand_alias_keeps (cmd : ParsedCommand) (als : gmap string string) :
  assignments (expand_alias cmd als) = assignments cmd /\
  redirects (expand_alias cmd als) = redirects cmd /\
  (exists extra, args (expand_alias cmd als) = extra ++ args cmd /\
     Forall (fun a => quoted a = false /\ value a <> EmptyString /\
                      Glob.contains (value a) "'"%char = false) extra) /\
  (name (expand_alias cmd als) = None <-> name cmd = None) /\
  (forall n, name cmd = Some n -> als !! n = None -> expand_alias cmd als = cmd).
Proof.
  assert (Hnil : exists extra : list Arg, args cmd = extra ++ args cmd /\
     Forall (fun a => quoted a = false /\ value a <> EmptyString /\
                      Glob.contains (value a) "'"%char = false) extra)
    by (exists []; auto).
  unfold expand_alias. destruct (name cmd) as [n|] eqn:Hn.
  - destruct (als !! n) as [v|] eqn:Hv.
    + destruct (shell_split v) as [|t0 ts] eqn:Hs.
      * split; [reflexivity|]. split; [reflexivity|]. split; [exact Hnil|].
        split; [rewrite Hn; split; discriminate|]. intros n' [= <-]. congruence.
      * simpl. split; [reflexivity|]. split; [reflexivity|]. split.
        -- exists (map (fun t => mkArg t false) ts). split; [reflexivity|].
           apply Forall_forall. intros a Ha. apply list_elem_of_In in Ha.
           apply in_map_iff in Ha as (t & <- & Ht). simpl.
           assert (In t (shell_split v)) as Hin by (rewrite Hs; right; exact Ht).
           unfold shell_split in Hin.
           apply shell_split_loop_tokens in Hin as [H1 H2]; [auto|reflexivity|intros ? []].
        -- split; [split; discriminate|]. intros n' [= <-]. congruence.
    + split; [reflexivity|]. split; [reflexivity|]. split; [exact Hnil|].
      split; [rewrite Hn; split; discriminate|]. intros n' _ _. reflexivity.
  - split; [reflexivity|]. split; [reflexivity|]. split; [exact Hnil|].
    split; [rewrite Hn; tauto|]. intros n' [=].
Qed.

End AliasFacts.


Module WaitFacts.
Import Ast Jobs Engine ExtraPredicates.
Local Open Scope list_scope.

Lemma stopped_not_done (j : Job) : is_stopped j = true -> is_done j = false.
Proof.
  unfold is_stopped, is_done. induction (processes j) as [|p ps IH]; simpl; [discriminate|].
  destruct (pstate p); simpl; auto.
Qed.

(** Without [Running] processes a job is stopped or done. *)
Lemma suspended_stopped_or_done (j : Job) :
  forallb (fun p => is_suspended (pstate p)) (processes j) = true ->
  is_stopped j = true \/ is_done j = true.
Proof.
  unfold is_stopped, is_done. intros Hs. rewrite Hs. simpl.
  induction (processes j) as [|p ps IH]; simpl in *; [right; reflexivity|].
  destruct (pstate p); simpl in *; try discriminate; auto.
Qed.

Lemma lookup_set_jobs (w : World) (js : gmap nat Job) : jobs (shell (set_jobs w js)) = js.
Proof. reflexivity. Qed.

Lemma mark_running_done_lookup (w : World) (job_id : nat) (lc : Z) :
  jobs (shell (mark_running_done w job_id lc)) !! job_id = None \/
  exists j, jobs (shell (mark_running_done w job_id lc)) !! job_id = Some j /\
            (is_stopped j = true \/ is_done j = true).
Proof.
  unfold mark_running_done. rewrite lookup_set_jobs, lookup_alter_eq.
  destruct (jobs (shell w) !! job_id) as [j|]; simpl; [right|left; reflexivity].
  eexists; split; [reflexivity|]. apply suspended_stopped_or_done.
  unfold map_processes; simpl. apply forallb_forall. intros p Hp.
  apply in_map_iff in Hp as (p0 & <- & _). destruct (pstate p0) eqn:E; simpl; rewrite ?E; reflexivity.
Qed.

Lemma wait_loop_settled_now (fuel job_id : nat) (lc : Z) (w : World) :
  (jobs (shell w) !! job_id = None \/
   exists j, jobs (shell w) !! job_id = Some j /\ (is_stopped j = true \/ is_done j = true)) ->
  settled job_id (snd (wait_loop fuel job_id true lc w)).
Proof.
  intros [H|(j & H & Hj)]; destruct fuel; cbn [wait_loop]; rewrite H; cbn [snd].
  1,2: left; exact H.
  all: destruct (is_stopped j) eqn:Hst; [right; eauto|];
       destruct Hj as [Hj|Hj]; [congruence|]; rewrite Hj; cbn [snd];
       left; rewrite lookup_set_jobs; apply lookup_delete_eq.
Qed.

Lemma wait_loop_settles (fuel : nat) :
  forall job_id lc w, length (wait_queue w) < fuel ->
  settled job_id (snd (wait_loop fuel job_id true lc w)).
Proof.
  induction fuel as [|f IH]; intros job_id lc w Hlen; [lia|].
  cbn [wait_loop].
  destruct (jobs (shell w) !! job_id) as [j|] eqn:Hj; [|left; exact Hj].
  destruct (is_stopped j) eqn:Hst; [right; eauto|].
  destruct (is_done j) eqn:Hd.
  { cbn [snd]. left. rewrite lookup_set_jobs. apply lookup_delete_eq. }
  cbn [negb]. unfold waitpid. destruct (wait_queue w) as [|st q] eqn:Hq.
  - apply wait_loop_settled_now, mark_running_done_lookup.
  - apply IH. destruct st; simpl in *; lia.
Qed.

(** A foreground [wait_for_job] returns only once the job has left the
    table (it finished, or was never there) or is stopped: it never
    returns while a process of the job may still run. *)
Theorem wait_for_job_fg_settles (job_id : nat) (w : World) :
  jobs (shell (snd (wait_for_job job_id w true))) !! job_id = None \/
  exists j, jobs (shell (snd (wait_for_job job_id w true))) !! job_id = Some j /\
            is_stopped j = true.
Proof.
  unfold wait_for_job. cbn [andb].
  destruct (jobs (shell w) !! job_id) eqn:Hj; cbn [negb bool_decide].
  - rewrite bool_decide_eq_true_2 by (eexists; eauto). cbn [negb].
    apply wait_loop_settles. lia.
  - rewrite bool_decide_eq_false_2 by (intros [? ?]; discriminate). cbn [negb snd].
    left; exact Hj.
Qed.

(** A non-blocking [wait_for_job] ([fg = false], as the [wait] built-in
    calls it) changes nothing: no status is consumed and no job removed; it
    returns the job's exit code when it is done and 0 otherwise. *)
Theorem wait_for_job_background (job_id : nat) (w : World) :
  wait_for_job job_id w false =
  (match jobs (shell w) !! job_id with
   | Some j => if is_done j then match state j with Done c => c | _ => 0%Z end else 0%Z
   | None => 0%Z
   end, w).
Proof.
  unfold wait_for_job. cbn [andb]. cbn [wait_loop].
  destruct (jobs (shell w) !! job_id) as [j|]; [|reflexivity].
  destruct (is_stopped j) eqn:Hst.
  - rewrite (stopped_not_done j Hst). reflexivity.
  - destruct (is_done j); reflexivity.
Qed.

(** Waiting for a job id that is not in the table returns 0 at once and
    leaves everything as it was, in the foreground or not. *)
Theorem wait_for_job_missing (job_id : nat) (w : World) (fg : bool) :
  jobs (shell w) !! job_id = None -> wait_for_job job_id w fg = (0%Z, w).
Proof.
  intros Hj. unfold wait_for_job. rewrite Hj.
  rewrite bool_decide_eq_false_2 by (intros [? ?]; discriminate).
  destruct fg; cbn [andb negb]; [reflexivity|]. cbn [wait_loop]. rewrite Hj. reflexivity.
Qed.

Lemma wait_for_job_missing_witness :
  jobs (shell Fixtures.world0) !! 7 = None /\
  wait_for_job 7 Fixtures.world0 true = (0%Z, Fixtures.world0).
Proof.
  split; [reflexivity|]. apply wait_for_job_missing. reflexivity.
Defined.

End WaitFacts.

Module UpdateFacts.
Import Ast Jobs Engine ExtraPredicates.
Local Open Scope list_scope.

Lemma apply_status_dom (w : World) (st : WaitStatus) (k : nat) :
  is_Some (jobs (shell (apply_status w st)) !! k) <-> is_Some (jobs (shell w) !! k).
Proof.
  destruct st; simpl; try reflexivity;
    unfold update_pid_state, set_jobs; simpl; rewrite lookup_fmap, fmap_is_Some; reflexivity.
Qed.

Lemma drain_dom (ready : nat) :
  forall w k, is_Some (jobs (shell (drain ready w)) !! k) <-> is_Some (jobs (shell w) !! k).
Proof.
  induction ready as [|r IH]; intros w k; simpl; [reflexivity|].
  unfold waitpid. destruct (wait_queue w) as [|st q]; [reflexivity|].
  rewrite IH, apply_status_dom. reflexivity.
Qed.

(** After [update_jobs] no job in the table is done, and every job in it
    was already in the table before: finished jobs are removed, none is
    added. *)
Theorem update_jobs_no_done (ready : nat) (w : World) (k : nat) (j : Job) :
  jobs (shell (update_jobs ready w)) !! k = Some j ->
  is_done j = false /\ is_Some (jobs (shell w) !! k).
Proof.
  unfold update_jobs. cbn [shell set_jobs set_shell jobs].
  rewrite map_lookup_filter_Some. intros [H1 H2]. simpl in H2. split.
  - destruct (is_done j); [simpl in H2; contradiction|reflexivity].
  - apply (drain_dom ready w k). eexists; eauto.
Qed.

Lemma update_jobs_no_done_witness :
  jobs (shell (update_jobs 1 world_two_jobs)) !! 2 = Some (running_job 2 2 "b") /\
  (is_done (running_job 2 2 "b") = false /\ is_Some (jobs (shell world_two_jobs) !! 2)).
Proof.
  assert (H : jobs (shell (update_jobs 1 world_two_jobs)) !! 2 = Some (running_job 2 2 "b"))
    by (vm_compute; reflexivity).
  split; [exact H|]. exact (update_jobs_no_done 1 world_two_jobs 2 _ H).
Defined.

End UpdateFacts.


Module ExecFacts.
Import Ast Jobs Engine.
Local Open Scope list_scope.

Lemma map_processes_id (f : ProcessInfo -> ProcessInfo) (j : Job) :
  (forall pr, In pr (processes j) -> f pr = pr) -> map_processes f j = j.
Proof.
  intros H. destruct j as [i g c ps rd]. unfold map_processes; simpl in *.
  f_equal. rewrite <- (map_id ps) at 2. apply map_ext_in. exact H.
Qed.

(** A status for a pid that belongs to no process of any job (a child the
    shell does not track) leaves the job table as it is. *)
Theorem update_pid_state_unknown (w : World) (p : nat) (s : JobState) :
  (forall k j pr, jobs (shell w) !! k = Some j -> In pr (processes j) -> pid pr <> p) ->
  jobs (shell (update_pid_state w p s)) = jobs (shell w).
Proof.
  intros H. unfold update_pid_state, set_jobs. cbn [shell set_shell jobs].
  rewrite <- (map_fmap_id (jobs (shell w))) at 2. apply map_fmap_ext.
  intros k j Hk. apply map_processes_id. intros pr Hpr. unfold set_pstate.
  destruct (Nat.eqb (pid pr) p) eqn:E; [|reflexivity].
  apply Nat.eqb_eq in E. exfalso. exact (H k j pr Hk Hpr E).
Qed.

Lemma update_pid_state_unknown_witness :
  (forall k j pr, jobs (shell Fixtures.world0) !! k = Some j -> In pr (processes j) -> pid pr <> 5) /\
  jobs (shell (update_pid_state Fixtures.world0 5 Stopped)) = jobs (shell Fixtures.world0).
Proof.
  assert (H : forall k j pr, jobs (shell Fixtures.world0) !! k = Some j ->
              In pr (processes j) -> pid pr <> 5)
    by (intros k j pr Hk; unfold Fixtures.world0 in Hk; cbn [shell jobs] in Hk;
        rewrite lookup_empty in Hk; discriminate).
  split; [exact H|]. apply update_pid_state_unknown. exact H.
Defined.

Lemma fold_assign_notin (asg : list (string * string)) :
  forall (vs : gmap string string) k, ~ In k (map fst asg) ->
  fold_left (fun vs kv => <[kv.1 := kv.2]> vs) asg vs !! k = vs !! k.
Proof.
  induction asg as [|[a v] r IH]; intros vs k Hk; simpl in *; [reflexivity|].
  rewrite IH by tauto. apply lookup_insert_ne. intros ->. tauto.
Qed.

Lemma fold_assign_last (l1 l2 : list (string * string)) (k v : string) :
  forall (vs : gmap string string), ~ In k (map fst l2) ->
  fold_left (fun vs kv => <[kv.1 := kv.2]> vs) (l1 ++ (k, v) :: l2) vs !! k = Some v.
Proof.
  intros vs Hk. rewrite fold_left_app. simpl. rewrite fold_assign_notin by exact Hk.
  apply lookup_insert_eq.
Qed.

Lemma rfind_in {A} (f : A -> bool) (l : list A) (x : A) : rfind f l = Some x -> In x l.
Proof.
  induction l as [|y r IH]; simpl; [discriminate|].
  destruct (rfind f r); [intros [= <-]; right; apply IH; reflexivity|].
  destruct (f y); [intros [= <-]; left; reflexivity|discriminate].
Qed.

Section Exec.
Variable glob : string -> option (list (option string)).
Variable is_builtin : string -> bool.
Variable run_builtin : string -> list string -> World -> ExecutionResult * Z * World.
Variable open_ok : Redirect -> bool.
Variable spawn_ok : string -> bool.

Lemma open_resolved (rs : list Redirect) :
  Forall (fun r => open_ok r = true) rs ->
  open_redirect open_ok (fst (resolve_redirects rs)) = true /\
  open_redirect open_ok (snd (resolve_redirects rs)) = true.
Proof.
  intros H. rewrite Forall_forall in H. unfold resolve_redirects, open_redirect; simpl.
  split.
  - destruct (rfind is_stdin_kind rs) eqn:E; [|reflexivity].
    apply H, list_elem_of_In. eapply rfind_in; exact E.
  - destruct (rfind is_stdout_kind rs) eqn:E; [|reflexivity].
    apply H, list_elem_of_In. eapply rfind_in; exact E.
Qed.

(** A command made of assignments only ([VAR=val ...]) starts nothing: the
    job table, the pending statuses, the pids and the aliases stay; it
    exits with 0, or 1 when a redirection cannot be opened; and its
    assignments are stored in the shell variables whether or not the
    redirections open, the last assignment of a name winning and other
    variables untouched. *)
Theorem execute_simple_assignments (p : Pipeline) (cmd : ParsedCommand) (w : World) :
  name cmd = None ->
  let '(r, code, w') := execute_simple glob is_builtin run_builtin open_ok spawn_ok p cmd w in
  r = KeepRunning /\ (code = 0%Z \/ code = 1%Z) /\
  jobs (shell w') = jobs (shell w) /\ next_job_id (shell w') = next_job_id (shell w) /\
  aliases (shell w') = aliases (shell w) /\
  wait_queue w' = wait_queue w /\ next_pid w' = next_pid w /\
  (forall k, ~ In k (map fst (assignments cmd)) ->
     variables (shell w') !! k = variables (shell w) !! k) /\
  (forall l1 k v l2, assignments cmd = l1 ++ (k, v) :: l2 -> ~ In k (map fst l2) ->
     variables (shell w') !! k = Some v).
Proof.
  intros Hn. unfold execute_simple.
  destruct (resolve_redirects (redirects cmd)) as [si so]. rewrite Hn.
  assert (Hw : forall code, (code = 0%Z \/ code = 1%Z) ->
    KeepRunning = KeepRunning /\ (code = 0%Z \/ code = 1%Z) /\
    jobs (shell (apply_assignments w (assignments cmd))) = jobs (shell w) /\
    next_job_id (shell (apply_assignments w (assignments cmd))) = next_job_id (shell w) /\
    aliases (shell (apply_assignments w (assignments cmd))) = aliases (shell w) /\
    wait_queue (apply_assignments w (assignments cmd)) = wait_queue w /\
    next_pid (apply_assignments w (assignments cmd)) = next_pid w /\
    (forall k, ~ In k (map fst (assignments cmd)) ->
       variables (shell (apply_assignments w (assignments cmd))) !! k = variables (shell w) !! k) /\
    (forall l1 k v l2, assignments cmd = l1 ++ (k, v) :: l2 -> ~ In k (map fst l2) ->
       variables (shell (apply_assignments w (assignments cmd))) !! k = Some v)).
  { intros code Hc. unfold apply_assignments, set_shell; cbn [shell variables jobs aliases
      next_job_id wait_queue next_pid].
    do 7 (split; [auto|]). split.
    - intros k Hk. apply fold_assign_notin. exact Hk.
    - intros l1 k v l2 Heq Hk. rewrite Heq. apply fold_assign_last. exact Hk. }
  destruct (negb (open_redirect open_ok si)); [apply Hw; auto|].
  destruct (negb (open_redirect open_ok so)); apply Hw; auto.
Qed.

(** A one-command pipeline naming an external command (no alias, no
    built-in) that cannot be spawned returns 127 (inverted when the
    pipeline is negated) and leaves the shell and the processes as they
    were: no job is registered. *)
Theorem execute_not_found (p : Pipeline) (cmd : ParsedCommand) (n : string) (w : World) :
  commands p = [cmd] -> name cmd = Some n -> aliases (shell w) !! n = None ->
  is_builtin n = false -> spawn_ok n = false ->
  Forall (fun r => open_ok r = true) (redirects cmd) ->
  execute glob is_builtin run_builtin open_ok spawn_ok p w =
  (KeepRunning, negate (negated p) 127%Z, w).
Proof.
  intros Hc Hn Ha Hb Hs Ho. unfold execute. rewrite Hc. cbn [map commands].
  assert (He : expand_alias cmd (aliases (shell w)) = cmd)
    by (unfold expand_alias; rewrite Hn, Ha; reflexivity).
  rewrite He. cbn [commands negated background].
  unfold execute_simple. destruct (open_resolved _ Ho) as [H1 H2].
  destruct (resolve_redirects (redirects cmd)) as [si so]. simpl in H1, H2.
  rewrite Hn, Hb, H1, H2, Hs. reflexivity.
Qed.

(** A one-command pipeline run in the background ([cmd &]) that spawns
    returns at once with 0 (inverted when negated), without consuming any
    process status: its job is registered under [next_job_id], with the
    new child as its only, running, process and as its process group, and
    [next_job_id] and the next pid go up by one; the other jobs stay. *)
Theorem execute_background (p : Pipeline) (cmd : ParsedCommand) (n : string) (w : World) :
  commands p = [cmd] -> background p = true -> name cmd = Some n ->
  aliases (shell w) !! n = None -> is_builtin n = false -> spawn_ok n = true ->
  Forall (fun r => open_ok r = true) (redirects cmd) ->
  let '(r, code, w') := execute glob is_builtin run_builtin open_ok spawn_ok p w in
  r = KeepRunning /\ code = negate (negated p) 0%Z /\
  jobs (shell w') = <[next_job_id (shell w) :=
      mkJob (next_job_id (shell w)) (next_pid w) (format_command p)
            [mkProcess (next_pid w) n Running] false]> (jobs (shell w)) /\
  next_job_id (shell w') = S (next_job_id (shell w)) /\
  next_pid w' = S (next_pid w) /\ wait_queue w' = wait_queue w.
Proof.
  intros Hc Hbg Hn Ha Hb Hs Ho. unfold execute. rewrite Hc. cbn [map commands].
  assert (He : expand_alias cmd (aliases (shell w)) = cmd)
    by (unfold expand_alias; rewrite Hn, Ha; reflexivity).
  rewrite He. cbn [commands negated background].
  unfold execute_simple. destruct (open_resolved _ Ho) as [H1 H2].
  destruct (resolve_redirects (redirects cmd)) as [si so]. simpl in H1, H2.
  rewrite Hn, Hb, H1, H2, Hs. cbn [negb].
  assert (Hp : mkPipeline [cmd] (negated p) (background p) = p)
    by (destruct p; simpl in *; subst; reflexivity).
  rewrite Hp. unfold register_job. cbn [shell background]. rewrite Hbg.
  cbn [shell jobs next_job_id next_pid wait_queue].
  repeat split; reflexivity.
Qed.

End Exec.

Lemma execute_simple_assignments_witness :
  name (mkCommand [("A", "1"); ("A", "2")] None [] []) = None /\
  (let '(r, code, w') := execute_simple Fixtures.no_glob Fixtures.no_builtin
        Fixtures.noop_builtin Fixtures.all_open Fixtures.all_spawn
        (mkPipeline [mkCommand [("A", "1"); ("A", "2")] None [] []] false false)
        (mkCommand [("A", "1"); ("A", "2")] None [] []) Fixtures.world0 in
   r = KeepRunning /\ (code = 0%Z \/ code = 1%Z) /\
   jobs (shell w') = jobs (shell Fixtures.world0) /\
   next_job_id (shell w') = next_job_id (shell Fixtures.world0) /\
   aliases (shell w') = aliases (shell Fixtures.world0) /\
   wait_queue w' = wait_queue Fixtures.world0 /\ next_pid w' = next_pid Fixtures.world0 /\
   (forall k, ~ In k (map fst [("A", "1"); ("A", "2")]) ->
      variables (shell w') !! k = variables (shell Fixtures.world0) !! k) /\
   (forall l1 k v l2, [("A", "1"); ("A", "2")] = l1 ++ (k, v) :: l2 ->
      ~ In k (map fst l2) -> variables (shell w') !! k = Some v)).
Proof.
  split; [reflexivity|].
  exact (execute_simple_assignments Fixtures.no_glob Fixtures.no_builtin
           Fixtures.noop_builtin Fixtures.all_open Fixtures.all_spawn
           (mkPipeline [mkCommand [("A", "1"); ("A", "2")] None [] []] false false)
           (mkCommand [("A", "1"); ("A", "2")] None [] []) Fixtures.world0 eq_refl).
Defined.

Lemma execute_not_found_witness :
  execute Fixtures.no_glob Fixtures.no_builtin Fixtures.noop_builtin Fixtures.all_open
    Fixtures.spawn_known (mkPipeline [Fixtures.simple_cmd "nosuch" []] false false)
    Fixtures.world0 = (KeepRunning, 127%Z, Fixtures.world0).
Proof.
  exact (execute_not_found Fixtures.no_glob Fixtures.no_builtin Fixtures.noop_builtin
           Fixtures.all_open Fixtures.spawn_known
           (mkPipeline [Fixtures.simple_cmd "nosuch" []] false false)
           (Fixtures.simple_cmd "nosuch" []) "nosuch" Fixtures.world0
           eq_refl eq_refl eq_refl eq_refl eq_refl (List.Forall_nil _)).
Defined.

Lemma execute_background_witness :
  let '(r, code, w') := execute Fixtures.no_glob Fixtures.no_builtin Fixtures.noop_builtin
      Fixtures.all_open Fixtures.all_spawn
      (mkPipeline [Fixtures.simple_cmd "sleep" ["9"]] false true) Fixtures.world0 in
  r = KeepRunning /\ code = 0%Z /\
  jobs (shell w') = <[1 := mkJob 1 1 "sleep 9 &" [mkProcess 1 "sleep" Running] false]> ∅ /\
  next_job_id (shell w') = 2 /\ next_pid w' = 2 /\ wait_queue w' = [WExited 1 0%Z].
Proof.
  exact (execute_background Fixtures.no_glob Fixtures.no_builtin Fixtures.noop_builtin
           Fixtures.all_open Fixtures.all_spawn
           (mkPipeline [Fixtures.simple_cmd "sleep" ["9"]] false true)
           (Fixtures.simple_cmd "sleep" ["9"]) "sleep" Fixtures.world0
           eq_refl eq_refl eq_refl eq_refl eq_refl eq_refl (List.Forall_nil _)).
Defined.

End ExecFacts.


Module PathFacts.
Import Dirs ExtraPredicates.
Local Open Scope list_scope.

Lemma vec_last_snoc {A} (l : list A) (x : A) : Jobs.vec_last (l ++ [x]) = Some x.
Proof.
  induction l as [|y l IH]; [reflexivity|].
  change (Jobs.vec_last (y :: (l ++ [x])) = Some x).
  destruct l as [|z l]; [reflexivity|]. exact IH.
Qed.

Lemma vec_last_parents (k : nat) :
  Jobs.vec_last (repeat ParentDir k) = match k with O => None | S _ => Some ParentDir end.
Proof.
  induction k as [|k IH]; [reflexivity|].
  change (Jobs.vec_last (ParentDir :: repeat ParentDir k) = Some ParentDir).
  destruct k; [reflexivity|]. exact IH.
Qed.

Lemma repeat_snoc {A} (x : A) (k : nat) : repeat x k ++ [x] = repeat x (S k).
Proof. induction k as [|k IH]; [reflexivity|]. simpl. now rewrite IH. Qed.

Lemma nf_snoc_normal (p : Path) (s : string) : nf p -> nf (p ++ [Normal s]).
Proof.
  intros [(xs & ->)|(k & xs & ->)].
  - left. exists (xs ++ [s]). rewrite map_app. reflexivity.
  - right. exists k, (xs ++ [s]). rewrite map_app, app_assoc. reflexivity.
Qed.

Lemma normalize_loop_nf (cs : list Component) :
  forall acc, nf acc -> nf (normalize_loop cs acc).
Proof.
  induction cs as [|c cs IH]; intros acc Hacc; cbn [normalize_loop]; [exact Hacc|].
  destruct c as [| | |s].
  - apply IH. left. exists []. reflexivity.
  - apply IH, Hacc.
  - destruct Hacc as [(xs & ->)|(k & xs & ->)].
    + destruct xs as [|x xs'] using rev_ind.
      * apply IH. left. exists []. reflexivity.
      * rewrite map_app. change (RootDir :: map Normal xs' ++ map Normal [x])
          with ((RootDir :: map Normal xs') ++ [Normal x]).
        rewrite vec_last_snoc, removelast_last. apply IH. left. eauto.
    + destruct xs as [|x xs'] using rev_ind.
      * rewrite app_nil_r, vec_last_parents.
        destruct k as [|k]; unfold push; apply IH; right.
        -- exists 1%nat, []. reflexivity.
        -- exists (S (S k)), []. rewrite app_nil_r. apply repeat_snoc.
      * rewrite map_app, app_assoc. change (map Normal [x]) with [Normal x].
        rewrite vec_last_snoc, removelast_last. apply IH. right. eauto.
  - apply IH. unfold push. apply nf_snoc_normal, Hacc.
Qed.

(** [normalize_path] gives [.] alone, or a root followed by plain names, or
    some leading [..] followed by plain names: no [.] component is left
    and no [..] follows a name or the root. *)
Theorem normalize_path_shape (p : Path) :
  normalize_path p = [CurDir] \/
  (exists xs, normalize_path p = RootDir :: map Normal xs) \/
  (exists k xs, normalize_path p = repeat ParentDir k ++ map Normal xs /\ (k + length xs <> 0)%nat).
Proof.
  unfold normalize_path.
  assert (H : nf (normalize_loop p [])) by (apply normalize_loop_nf; right; exists 0%nat, []; reflexivity).
  destruct (normalize_loop p []) as [|c l] eqn:E; [left; reflexivity|right].
  destruct H as [(xs & Hx)|(k & xs & Hx)]; [left; eauto|right].
  exists k, xs. split; [exact Hx|]. intros Hk.
  destruct k; [|discriminate]. destruct xs; [discriminate|discriminate].
Qed.

Lemma normalize_loop_names (xs : list string) :
  forall acc, normalize_loop (map Normal xs) acc = acc ++ map Normal xs.
Proof.
  induction xs as [|x xs IH]; intros acc; simpl; [now rewrite app_nil_r|].
  rewrite IH. unfold push. now rewrite <- app_assoc.
Qed.

Lemma normalize_loop_parents (k : nat) :
  forall j rest, normalize_loop (repeat ParentDir k ++ rest) (repeat ParentDir j) =
                 normalize_loop rest (repeat ParentDir (j + k)).
Proof.
  induction k as [|k IH]; intros j rest; simpl; [now rewrite Nat.add_0_r|].
  rewrite vec_last_parents. unfold push.
  replace (j + S k)%nat with (S j + k)%nat by lia.
  rewrite <- IH, repeat_snoc. destruct j; reflexivity.
Qed.

Lemma normalize_loop_nf_fixed (q : Path) : nf q -> normalize_loop q [] = q.
Proof.
  intros [(xs & ->)|(k & xs & ->)].
  - change (RootDir :: map Normal xs) with ([RootDir] ++ map Normal xs) at 1.
    cbn [app normalize_loop push]. now rewrite normalize_loop_names.
  - change (normalize_loop (repeat ParentDir k ++ map Normal xs) [])
      with (normalize_loop (repeat ParentDir k ++ map Normal xs) (repeat ParentDir 0)).
    rewrite normalize_loop_parents, normalize_loop_names. reflexivity.
Qed.

Lemma normalize_path_idem (p : Path) : normalize_path (normalize_path p) = normalize_path p.
Proof.
  unfold normalize_path at 2 3.
  assert (H : nf (normalize_loop p [])) by (apply normalize_loop_nf; right; exists 0%nat, []; reflexivity).
  destruct (normalize_loop p []) as [|c l] eqn:E; [reflexivity|].
  unfold normalize_path. rewrite (normalize_loop_nf_fixed _ H). reflexivity.
Qed.

(** [normalize_path] is idempotent. *)
Theorem normalize_path_idempotent (p : Path) :
  normalize_path (normalize_path p) = normalize_path p.
Proof. apply normalize_path_idem. Qed.

(** [expand_home] always returns a normalized path, except for a bare [~]
    when the home directory is known, which it returns as it is. *)
Theorem expand_home_normalized (home : option Path) (s : string) :
  (s <> "~" \/ home = None) ->
  normalize_path (expand_home home s) = expand_home home s.
Proof.
  intros Hs. unfold expand_home.
  destruct (String.eqb s "~") eqn:E.
  - apply String.eqb_eq in E. destruct Hs as [Hs| ->]; [contradiction|].
    apply normalize_path_idem.
  - destruct (String.prefix "~/" s || String.prefix "~\" s); [destruct home|];
      apply normalize_path_idem.
Qed.

Lemma expand_home_normalized_witness :
  ("~/a/../b" <> "~" \/ Some [RootDir; Normal "home"] = None) /\
  normalize_path (expand_home (Some [RootDir; Normal "home"]) "~/a/../b") =
  expand_home (Some [RootDir; Normal "home"]) "~/a/../b".
Proof.
  assert (H : "~/a/../b" <> "~" \/ Some [RootDir; Normal "home"] = None) by (left; discriminate).
  split; [exact H|]. apply expand_home_normalized. exact H.
Defined.

End PathFacts.


Module DirsFacts.
Import Dirs DirsRunners ExtraPredicates.
Local Open Scope list_scope.

Section Enter.
Variable enter : Path -> Path -> option Path.

(** [pushd] without arguments on an empty stack and [popd] on an empty
    stack fail with exit code 1 and change neither the shell state nor the
    working directory. *)
Theorem empty_stack_errors (args : list string) (st : DirState) (fs : Fs) :
  dir_stack st = [] ->
  pushd_runner enter [] st fs = (1%Z, st, fs) /\ popd_runner enter args st fs = (1%Z, st, fs).
Proof.
  intros Hs. unfold pushd_runner, popd_runner, pushd, popd. rewrite Hs. simpl.
  split; [destruct (cwd fs); reflexivity|reflexivity].
Qed.

(** [pushd] without arguments swaps the working directory with the top of
    the stack; doing it twice, when both directories can be entered, goes
    back to the starting directory, the stack top being the other directory
    as [current_dir] reports it. *)
Theorem pushd_swap_twice (st : DirState) (fs : Fs) (current top d : Path) (rest : list Path) :
  cwd fs = Some current -> dir_stack st = rest ++ [top] ->
  enter current top = Some d -> enter d current = Some current ->
  let '(c1, st1, fs1) := pushd_runner enter [] st fs in
  let '(c2, st2, fs2) := pushd_runner enter [] st1 fs1 in
  c1 = 0%Z /\ c2 = 0%Z /\ cwd fs1 = Some d /\ dir_stack st1 = rest ++ [current] /\
  cwd fs2 = Some current /\ dir_stack st2 = rest ++ [d] /\ previous_dir st2 = Some d /\
  home fs2 = home fs.
Proof.
  intros Hc Hs He1 He2. unfold pushd_runner, pushd. rewrite Hc, Hs, DirsClaims.vec_pop_snoc.
  unfold set_current_dir. rewrite He1. cbn [cwd dir_stack home previous_dir].
  rewrite DirsClaims.vec_pop_snoc. rewrite He2. cbn [cwd dir_stack home previous_dir].
  repeat split; reflexivity.
Qed.

(** [cd -] goes to the previous directory and makes the directory it left
    the new previous one; doing it twice, when both directories can be
    entered, goes back to the starting directory.  [cd] never touches the
    directory stack. *)
Theorem cd_dash_twice (st : DirState) (fs : Fs) (current p d : Path) :
  cwd fs = Some current -> previous_dir st = Some p ->
  enter current p = Some d -> enter d current = Some current ->
  let '(c1, st1, fs1) := cd_runner enter ["-"] st fs in
  let '(c2, st2, fs2) := cd_runner enter ["-"] st1 fs1 in
  c1 = 0%Z /\ c2 = 0%Z /\ cwd fs1 = Some d /\ previous_dir st1 = Some current /\
  cwd fs2 = Some current /\ previous_dir st2 = Some d /\
  dir_stack st2 = dir_stack st /\ home fs2 = home fs.
Proof.
  intros Hc Hp He1 He2. unfold cd_runner, cd_run. rewrite Hc.
  change (String.eqb "-" "-") with true. cbv iota. rewrite Hp. unfold set_current_dir. rewrite He1. cbn [cwd dir_stack home previous_dir].
  rewrite He2. cbn [cwd dir_stack home previous_dir].
  repeat split; reflexivity.
Qed.

(** [cd] never changes the directory stack; when it fails it changes
    nothing, and when it succeeds the directory it left becomes the
    previous directory. *)
Theorem cd_keeps_stack (args : list string) (st : DirState) (fs : Fs) :
  let '(r, st', fs') := cd_run enter args st fs in
  dir_stack st' = dir_stack st /\ home fs' = home fs /\
  match r with
  | inl _ => st' = st /\ fs' = fs
  | inr _ => previous_dir st' = cwd fs /\ cwd fs' <> None
  end.
Proof.
  unfold cd_run. destruct (cwd fs) as [current|] eqn:Hc; [|auto].
  destruct (match args with
            | [] => match home fs with Some h => inr h | None => inl "Could not find home directory" end
            | a :: _ =>
                if String.eqb a "-" then
                  match previous_dir st with Some p => inr p | None => inl "OLDPWD not set" end
                else inr (expand_home (home fs) a)
            end) as [e|t]; [auto|].
  unfold set_current_dir. destruct (enter current t) as [d|]; [|auto].
  cbn [dir_stack home cwd previous_dir]. split; [reflexivity|split; [reflexivity|split; [reflexivity|discriminate]]].
Qed.

(** After a successful [pushd dir], [dirs] lists the new directory, then
    the one [pushd] left, then the earlier stack from its top. *)
Theorem dirs_after_pushd (dir : string) (st : DirState) (fs : Fs) (current d : Path) :
  cwd fs = Some current -> enter current (expand_home (home fs) dir) = Some d ->
  let '(c, st', fs') := pushd_runner enter [dir] st fs in
  c = 0%Z /\ run_dirs st' fs' = Some (d :: current :: rev (dir_stack st)).
Proof.
  intros Hc He. unfold pushd_runner, pushd. rewrite Hc. unfold set_current_dir. rewrite He.
  unfold run_dirs. cbn [cwd dir_stack]. rewrite rev_app_distr. split; reflexivity.
Qed.

End Enter.

Lemma empty_stack_errors_witness :
  dir_stack (mkDirState None []) = [] /\
  pushd_runner enter_all_but_missing [] (mkDirState None []) (mkFs (Some [RootDir]) None) =
    (1%Z, mkDirState None [], mkFs (Some [RootDir]) None) /\
  popd_runner enter_all_but_missing [] (mkDirState None []) (mkFs (Some [RootDir]) None) =
    (1%Z, mkDirState None [], mkFs (Some [RootDir]) None).
Proof.
  split; [reflexivity|]. apply empty_stack_errors. reflexivity.
Defined.

Lemma pushd_swap_twice_witness :
  let '(c1, st1, fs1) := pushd_runner enter_all_but_missing []
      (mkDirState None [[RootDir; Normal "tmp"]]) (mkFs (Some [RootDir; Normal "home"]) None) in
  let '(c2, st2, fs2) := pushd_runner enter_all_but_missing [] st1 fs1 in
  c1 = 0%Z /\ c2 = 0%Z /\ cwd fs1 = Some [RootDir; Normal "tmp"] /\
  dir_stack st1 = [] ++ [[RootDir; Normal "home"]] /\
  cwd fs2 = Some [RootDir; Normal "home"] /\ dir_stack st2 = [] ++ [[RootDir; Normal "tmp"]] /\
  previous_dir st2 = Some [RootDir; Normal "tmp"] /\ home fs2 = None.
Proof.
  exact (pushd_swap_twice enter_all_but_missing
           (mkDirState None [[RootDir; Normal "tmp"]]) (mkFs (Some [RootDir; Normal "home"]) None)
           [RootDir; Normal "home"] [RootDir; Normal "tmp"] [RootDir; Normal "tmp"] []
           eq_refl eq_refl eq_refl eq_refl).
Defined.

Lemma cd_dash_twice_witness :
  let '(c1, st1, fs1) := cd_runner enter_all_but_missing ["-"]
      (mkDirState (Some [RootDir; Normal "tmp"]) []) (mkFs (Some [RootDir; Normal "home"]) None) in
  let '(c2, st2, fs2) := cd_runner enter_all_but_missing ["-"] st1 fs1 in
  c1 = 0%Z /\ c2 = 0%Z /\ cwd fs1 = Some [RootDir; Normal "tmp"] /\
  previous_dir st1 = Some [RootDir; Normal "home"] /\
  cwd fs2 = Some [RootDir; Normal "home"] /\ previous_dir st2 = Some [RootDir; Normal "tmp"] /\
  dir_stack st2 = [] /\ home fs2 = None.
Proof.
  exact (cd_dash_twice enter_all_but_missing
           (mkDirState (Some [RootDir; Normal "tmp"]) []) (mkFs (Some [RootDir; Normal "home"]) None)
           [RootDir; Normal "home"] [RootDir; Normal "tmp"] [RootDir; Normal "tmp"]
           eq_refl eq_refl eq_refl eq_refl).
Defined.

Lemma dirs_after_pushd_witness :
  let '(c, st', fs') := pushd_runner enter_all_but_missing ["/tmp"]
      (mkDirState None [[RootDir; Normal "a"]; [RootDir; Normal "b"]])
      (mkFs (Some [RootDir; Normal "home"]) None) in
  c = 0%Z /\ run_dirs st' fs' =
    Some ([RootDir; Normal "tmp"] :: [RootDir; Normal "home"] ::
          [[RootDir; Normal "b"]; [RootDir; Normal "a"]]).
Proof.
  exact (dirs_after_pushd enter_all_but_missing "/tmp"
           (mkDirState None [[RootDir; Normal "a"]; [RootDir; Normal "b"]])
           (mkFs (Some [RootDir; Normal "home"]) None)
           [RootDir; Normal "home"] [RootDir; Normal "tmp"] eq_refl eq_refl).
Defined.

End DirsFacts.


Module ParserFacts.
Import Chars Ast Parser ExtraPredicates.
Local Open Scope list_scope.

Lemma parse_single_command_named (s rest : string) (c : ParsedCommand) :
  parse_single_command s = Some (rest, c) -> named_or_assigns c.
Proof.
  unfold parse_single_command, multispace0.
  destruct (take_in multispace_set s) as [p0 rest0].
  destruct (assignments_loop (String.length rest0) rest0 []) as [rest1 asg].
  destruct (parse_arg rest1) as [[after n]|].
  - destruct (words_loop _ after [] []) as [[rest3 args] redirs].
    destruct (take_in multispace_set rest3). intros [= _ <-]. left. simpl. discriminate.
  - destruct asg as [|a asg']; [discriminate|].
    destruct (words_loop _ rest1 [] []) as [[rest3 args] redirs].
    destruct (take_in multispace_set rest3). intros [= _ <-]. right. simpl. discriminate.
Qed.

Lemma pipe_loop_named (fuel : nat) :
  forall rest cmds, Forall named_or_assigns cmds ->
  Forall named_or_assigns (snd (pipe_loop fuel rest cmds)) /\
  (exists more, snd (pipe_loop fuel rest cmds) = cmds ++ more).
Proof.
  induction fuel as [|f IH]; intros rest cmds Hc; cbn [pipe_loop].
  - split; [exact Hc|]. exists []. now rewrite app_nil_r.
  - destruct (starts_with_char (trim_start rest) "|"%char &&
              negb (String.prefix "||" (trim_start rest))).
    2: { split; [exact Hc|]. exists []. now rewrite app_nil_r. }
    destruct (parse_single_command (skip1 (trim_start rest))) as [[after c]|] eqn:E.
    2: { split; [exact Hc|]. exists []. now rewrite app_nil_r. }
    destruct (IH after (cmds ++ [c])) as [H1 (more & H2)].
    + apply Forall_app. split; [exact Hc|]. constructor; [|constructor].
      eapply parse_single_command_named; exact E.
    + split; [exact H1|]. exists (c :: more). rewrite H2, <- app_assoc. reflexivity.
Qed.

Lemma parse_pipeline_expr_named (s rest : string) (p : Pipeline) :
  parse_pipeline_expr s = Some (rest, p) ->
  commands p <> [] /\ Forall named_or_assigns (commands p).
Proof.
  unfold parse_pipeline_expr, multispace0.
  destruct (take_in multispace_set s) as [p0 input].
  destruct (match input with
            | String "!"%char after_bang =>
                match after_bang with
                | EmptyString => (after_bang, true)
                | String c _ => if is_whitespace c then (after_bang, true) else (input, false)
                end
            | _ => (input, false)
            end) as [r0 neg].
  destruct (parse_single_command r0) as [[rest1 first]|] eqn:E; [|discriminate].
  destruct (pipe_loop_named (String.length rest1) rest1 [first]) as [H1 (more & H2)].
  { constructor; [|constructor]. eapply parse_single_command_named; exact E. }
  destruct (pipe_loop (String.length rest1) rest1 [first]) as [rest2 cmds].
  intros [= _ <-]. simpl in *. split; [rewrite H2; discriminate|exact H1].
Qed.

Lemma entries_loop_shape (fuel : nat) :
  forall rest es, exists more, entries_loop fuel rest es = es ++ more /\
    Forall (fun e => connector e <> None /\ good_entry e) more.
Proof.
  induction fuel as [|f IH]; intros rest es; cbn [entries_loop].
  - exists []. split; [now rewrite app_nil_r|constructor].
  - destruct (String.eqb (trim rest) EmptyString).
    { exists []. split; [now rewrite app_nil_r|constructor]. }
    destruct (parse_connector rest) as [[after_conn conn]|].
    2: { exists []. split; [now rewrite app_nil_r|constructor]. }
    destruct (parse_pipeline_expr after_conn) as [[after_p p]|] eqn:E.
    2: { exists []. split; [now rewrite app_nil_r|constructor]. }
    destruct (IH after_p (es ++ [mkEntry (Some conn) p])) as (more & H1 & H2).
    exists (mkEntry (Some conn) p :: more). split.
    + rewrite H1, <- app_assoc. reflexivity.
    + constructor; [|exact H2]. split; [simpl; discriminate|].
      apply (parse_pipeline_expr_named after_conn after_p p E).
Qed.

Lemma parse_input_shape_core (vars : gmap string string) (input : string)
    (es : list CommandEntry) :
  parse_input vars input = Some es ->
  exists first more, es = first :: more /\ connector first = None /\
    Forall (fun e => connector e <> None) more /\
    Forall (fun e => commands (pipeline e) <> [] /\
                     Forall (fun c => name c <> None \/ assignments c <> []) (commands (pipeline e)))
           es.
Proof.
  unfold parse_input.
  destruct (String.eqb (trim input) EmptyString || starts_with_char (trim input) "#"%char);
    [discriminate|].
  destruct (parse_pipeline_expr (trim (expand_env_vars vars input))) as [[after_first p]|] eqn:E;
    [|discriminate].
  destruct (entries_loop_shape (String.length after_first) after_first [mkEntry None p])
    as (more & H1 & H2).
  rewrite H1. simpl. intros [= <-].
  exists (mkEntry None p), more. split; [reflexivity|]. split; [reflexivity|]. split.
  - eapply Forall_impl; [exact H2|]. intros e [He _]. exact He.
  - constructor.
    + apply (parse_pipeline_expr_named _ _ _ E).
    + eapply Forall_impl; [exact H2|]. intros e [_ He]. exact He.
Qed.

(** What [parse_input] returns: a non-empty list of entries whose first one
    has no connector and all others have one, every pipeline having at
    least one command, and every command a name or an assignment. *)
Theorem parse_input_shape (vars : gmap string string) (input : string)
    (es : list CommandEntry) :
  parse_input vars input = Some es ->
  exists first more, es = first :: more /\ connector first = None /\
    Forall (fun e => connector e <> None) more /\
    Forall (fun e => commands (pipeline e) <> [] /\
                     Forall (fun c => name c <> None \/ assignments c <> []) (commands (pipeline e)))
           es.
Proof. apply parse_input_shape_core. Qed.

Lemma parse_input_shape_witness :
  parse_input ∅ "a && b | c ; d" =
    Some [mkEntry None (mkPipeline [mkCommand [] (Some "a") [] []] false false);
          mkEntry (Some And) (mkPipeline [mkCommand [] (Some "b") [] [];
                                          mkCommand [] (Some "c") [] []] false false);
          mkEntry (Some Semi) (mkPipeline [mkCommand [] (Some "d") [] []] false false)] /\
  exists first more,
    [mkEntry None (mkPipeline [mkCommand [] (Some "a") [] []] false false);
     mkEntry (Some And) (mkPipeline [mkCommand [] (Some "b") [] [];
                                     mkCommand [] (Some "c") [] []] false false);
     mkEntry (Some Semi) (mkPipeline [mkCommand [] (Some "d") [] []] false false)]
    = first :: more /\ connector first = None /\
    Forall (fun e => connector e <> None) more /\
    Forall (fun e => commands (pipeline e) <> [] /\
                     Forall (fun c => name c <> None \/ assignments c <> []) (commands (pipeline e)))
      [mkEntry None (mkPipeline [mkCommand [] (Some "a") [] []] false false);
       mkEntry (Some And) (mkPipeline [mkCommand [] (Some "b") [] [];
                                       mkCommand [] (Some "c") [] []] false false);
       mkEntry (Some Semi) (mkPipeline [mkCommand [] (Some "d") [] []] false false)].
Proof.
  assert (H : parse_input ∅ "a && b | c ; d" =
    Some [mkEntry None (mkPipeline [mkCommand [] (Some "a") [] []] false false);
          mkEntry (Some And) (mkPipeline [mkCommand [] (Some "b") [] [];
                                          mkCommand [] (Some "c") [] []] false false);
          mkEntry (Some Semi) (mkPipeline [mkCommand [] (Some "d") [] []] false false)])
    by (vm_compute; reflexivity).
  split; [exact H|]. exact (parse_input_shape ∅ _ _ H).
Defined.

(** [parse_line] returns a command only for a line of one entry holding one
    command, and that command has a name or an assignment. *)
Theorem parse_line_named (vars : gmap string string) (input : string) (c : ParsedCommand) :
  ParseLine.parse_line vars input = Some c ->
  (exists neg bg, parse_input vars input = Some [mkEntry None (mkPipeline [c] neg bg)]) /\
  (name c <> None \/ assignments c <> []).
Proof.
  unfold ParseLine.parse_line.
  destruct (parse_input vars input) as [es|] eqn:E; [|discriminate].
  destruct (parse_input_shape_core vars input es E) as (first & more & -> & Hf & Hm & Hg).
  destruct more; [|discriminate].
  destruct first as [conn [cmds neg bg]]. simpl in *. subst conn.
  destruct cmds as [|c0 [|c1 cs]]; try discriminate. intros [= <-].
  split; [exists neg, bg; reflexivity|].
  inversion Hg as [|? ? [_ Hc] _]; subst. inversion Hc; subst. assumption.
Qed.

Lemma parse_line_named_witness :
  ParseLine.parse_line ∅ "ls -l" = Some (mkCommand [] (Some "ls") [mkArg "-l" false] []) /\
  ((exists neg bg, parse_input ∅ "ls -l" =
      Some [mkEntry None (mkPipeline [mkCommand [] (Some "ls") [mkArg "-l" false] []] neg bg)]) /\
   (name (mkCommand [] (Some "ls") [mkArg "-l" false] []) <> None \/
    assignments (mkCommand [] (Some "ls") [mkArg "-l" false] []) <> [])).
Proof.
  assert (H : ParseLine.parse_line ∅ "ls -l" = Some (mkCommand [] (Some "ls") [mkArg "-l" false] []))
    by (vm_compute; reflexivity).
  split; [exact H|]. exact (parse_line_named ∅ _ _ H).
Defined.

End ParserFacts.

Module ArgFacts.
Import Chars Ast Parser.

Lemma ascii_eqb_iff (a b : ascii) : ascii_eqb a b = true <-> a = b.
Proof. unfold ascii_eqb. destruct (ascii_dec a b); split; congruence. Qed.

Lemma ascii_eqb_false (a b : ascii) : ascii_eqb a b = false <-> a <> b.
Proof. unfold ascii_eqb. destruct (ascii_dec a b); split; congruence. Qed.

Lemma mem_char_single (c q : ascii) : mem_char c (String q EmptyString) = ascii_eqb c q.
Proof. simpl. apply orb_false_r. Qed.

Lemma take_not_app (set s : string) :
  s = append (fst (take_not set s)) (snd (take_not set s)).
Proof.
  induction s as [|c r IH]; [reflexivity|]. simpl.
  destruct (mem_char c set); [reflexivity|].
  destruct (take_not set r) as [p r'] eqn:E. simpl in *.
  change (String c r = String c (append p r')). now rewrite IH at 1.
Qed.

Lemma take_not_free (q : ascii) (s : string) :
  Glob.contains (fst (take_not (String q EmptyString) s)) q = false.
Proof.
  induction s as [|c r IH]; [reflexivity|]. simpl. rewrite orb_false_r.
  destruct (ascii_eqb c q) eqn:Hc; [reflexivity|].
  destruct (take_not (String q EmptyString) r) as [p r'] eqn:E. simpl in *.
  rewrite IH. unfold ascii_eqb in *. destruct (ascii_dec c q); [discriminate|reflexivity].
Qed.

Lemma take_not_upto (q : ascii) (v r : string) :
  Glob.contains v q = false ->
  take_not (String q EmptyString) (append v (String q r)) = (v, String q r).
Proof.
  induction v as [|c v IH]; intros Hv.
  - simpl. rewrite orb_false_r. unfold ascii_eqb. destruct (ascii_dec q q); [reflexivity|congruence].
  - simpl in Hv. apply orb_false_iff in Hv as [H1 H2].
    change (take_not (String q EmptyString) (String c (append v (String q r))) =
            (String c v, String q r)).
    simpl. rewrite orb_false_r.
    assert (Hc : ascii_eqb c q = false) by exact H1. rewrite Hc, IH by exact H2. reflexivity.
Qed.

Lemma parse_quoted_shape (q : ascii) (s rest content : string) (b : bool) :
  parse_quoted q s = Some (rest, (content, b)) ->
  b = true /\ s = String q (append content (String q rest)) /\ content <> EmptyString /\
  Glob.contains content q = false.
Proof.
  unfold parse_quoted, pchar. destruct s as [|d s1]; [discriminate|].
  destruct (ascii_eqb q d) eqn:Hd; [|discriminate]. apply ascii_eqb_iff in Hd. subst d.
  unfold is_not. pose proof (take_not_app (String q EmptyString) s1) as Happ.
  pose proof (take_not_free q s1) as Hfree.
  destruct (take_not (String q EmptyString) s1) as [p s2]. simpl in Happ, Hfree.
  destruct (String.eqb p EmptyString) eqn:Ep; [discriminate|].
  destruct s2 as [|e s3]; [discriminate|].
  destruct (ascii_eqb q e) eqn:He; [|discriminate]. apply ascii_eqb_iff in He. subst e.
  intros [= <- <- <-]. split; [reflexivity|]. split; [now rewrite Happ|].
  split; [|exact Hfree]. intros ->. discriminate.
Qed.

Lemma segments_loop_count (fuel : nat) :
  forall r v c r' v' c', segments_loop fuel r v c = (r', v', c') ->
  c <= c' /\ (c' = c -> r' = r /\ v' = v).
Proof.
  induction fuel as [|f IH]; intros r v c r' v' c' H; cbn [segments_loop] in H.
  - injection H as <- <- <-. split; [lia|auto].
  - destruct (parse_segment r) as [[after seg]|].
    + apply IH in H as [H1 H2]. split; [lia|]. intros ->. lia.
    + injection H as <- <- <-. split; [lia|auto].
Qed.

(** [parse_arg] marks an argument as quoted only when it is exactly one
    quoted segment: an opening quote, a non-empty text without that quote,
    and the closing quote. *)
Theorem parse_arg_quoted (s rest : string) (a : Arg) :
  parse_arg s = Some (rest, a) -> quoted a = true ->
  exists q, (q = dquote \/ q = "'"%char) /\
    s = String q (append (value a) (String q rest)) /\
    value a <> EmptyString /\ Glob.contains (value a) q = false.
Proof.
  unfold parse_arg. destruct (parse_segment s) as [[rest0 [v0 b0]]|] eqn:Es; [|discriminate].
  destruct (segments_loop (String.length rest0) rest0 (v0, b0).1 1) as [[r' v'] cnt] eqn:Eseg.
  intros [= <- <-]. simpl. intros Hq. apply andb_true_iff in Hq as [Hc Hb].
  apply Nat.eqb_eq in Hc. subst cnt b0.
  apply segments_loop_count in Eseg as [_ Eseg]. destruct (Eseg eq_refl) as [-> ->].
  unfold parse_segment in Es.
  destruct (parse_double_quoted s) as [r1|] eqn:Ed.
  - injection Es as ->. apply parse_quoted_shape in Ed as (_ & H1 & H2 & H3).
    exists dquote. auto.
  - destruct (parse_single_quoted s) as [r1|] eqn:Esq.
    + injection Es as ->. apply parse_quoted_shape in Esq as (_ & H1 & H2 & H3).
      exists "'"%char. auto.
    + unfold parse_unquoted in Es. destruct (is_not unquoted_stop s) as [[? ?]|]; discriminate.
Qed.

Lemma parse_segment_stop (rest : string) :
  (rest = EmptyString \/ exists c r, rest = String c r /\ mem_char c unquoted_stop = true /\
                                      c <> dquote /\ c <> "'"%char) ->
  parse_segment rest = None.
Proof.
  intros [->|(c & r & -> & Hs & Hd & Hq)]; [reflexivity|].
  unfold parse_segment, parse_double_quoted, parse_single_quoted, parse_quoted, pchar.
  assert (E1 : ascii_eqb dquote c = false) by (apply ascii_eqb_false; congruence).
  assert (E2 : ascii_eqb "'"%char c = false) by (apply ascii_eqb_false; congruence).
  rewrite E1, E2. unfold parse_unquoted, is_not. cbn [take_not]. rewrite Hs. reflexivity.
Qed.

(** A quoted word ([...] in double or single quotes, non-empty, without
    that quote inside) followed by the end of input or a separator
    (whitespace, [;], [&], [|], [<], [>]) is parsed as one quoted argument
    holding the text between the quotes. *)
Theorem parse_arg_quoted_word (q : ascii) (v rest : string) :
  (q = dquote \/ q = "'"%char) -> v <> EmptyString -> Glob.contains v q = false ->
  (rest = EmptyString \/ exists c r, rest = String c r /\ mem_char c unquoted_stop = true /\
                                      c <> dquote /\ c <> "'"%char) ->
  parse_arg (String q (append v (String q rest))) = Some (rest, mkArg v true).
Proof.
  intros Hqq Hv Hfree Hrest.
  assert (Hpq : parse_quoted q (String q (append v (String q rest))) = Some (rest, (v, true))).
  { unfold parse_quoted, pchar. rewrite (proj2 (ascii_eqb_iff q q) eq_refl).
    unfold is_not. rewrite take_not_upto by exact Hfree.
    destruct (String.eqb v EmptyString) eqn:Ev; [apply String.eqb_eq in Ev; contradiction|].
    rewrite (proj2 (ascii_eqb_iff q q) eq_refl). reflexivity. }
  assert (Hseg : parse_segment (String q (append v (String q rest))) = Some (rest, (v, true))).
  { unfold parse_segment, parse_double_quoted, parse_single_quoted.
    destruct Hqq as [->| ->]; [rewrite Hpq; reflexivity|].
    rewrite Hpq. reflexivity. }
  unfold parse_arg. rewrite Hseg. cbn [fst snd].
  pose proof (parse_segment_stop rest Hrest) as Hn.
  destruct (String.length rest); cbn [segments_loop]; [reflexivity|]. rewrite Hn. reflexivity.
Qed.

Lemma parse_arg_quoted_witness :
  parse_arg (String dquote (append "*.rs" (String dquote " x"))) =
    Some (" x", mkArg "*.rs" true) /\
  exists q, (q = dquote \/ q = "'"%char) /\
    String dquote (append "*.rs" (String dquote " x")) =
      String q (append (value (mkArg "*.rs" true)) (String q " x")) /\
    value (mkArg "*.rs" true) <> EmptyString /\ Glob.contains (value (mkArg "*.rs" true)) q = false.
Proof.
  assert (H : parse_arg (String dquote (append "*.rs" (String dquote " x"))) =
              Some (" x", mkArg "*.rs" true)) by (vm_compute; reflexivity).
  split; [exact H|]. exact (parse_arg_quoted _ _ _ H eq_refl).
Defined.

Lemma parse_arg_quoted_word_witness :
  ("'"%char = dquote \/ "'"%char = "'"%char) /\ "a b" <> EmptyString /\
  Glob.contains "a b" "'"%char = false /\
  parse_arg (String "'"%char (append "a b" (String "'"%char EmptyString))) =
    Some (EmptyString, mkArg "a b" true).
Proof.
  assert (H1 : "'"%char = dquote \/ "'"%char = "'"%char) by (right; reflexivity).
  assert (H2 : "a b" <> EmptyString) by discriminate.
  assert (H3 : Glob.contains "a b" "'"%char = false) by reflexivity.
  split; [exact H1|]. split; [exact H2|]. split; [exact H3|].
  exact (parse_arg_quoted_word "'"%char "a b" EmptyString H1 H2 H3 (or_introl eq_refl)).
Defined.

End ArgFacts.


Module PipelineExitFacts.
Import Ast Jobs Engine.
Local Open Scope list_scope.

Section Exit.
Variable glob : string -> option (list (option string)).
Variable is_builtin : string -> bool.
Variable run_builtin : string -> list string -> World -> ExecutionResult * Z * World.
Variable open_ok : Redirect -> bool.
Variable spawn_ok : string -> bool.

Lemma spawn_loop_exit (cmds : list ParsedCommand) :
  forall i li fp procs w c w',
  spawn_loop open_ok spawn_ok i li cmds fp procs w = Aborted Exit c w' ->
  c = 0%Z /\ shell w' = shell w /\ Exists (fun cmd => name cmd = Some "exit") cmds.
Proof.
  induction cmds as [|cmd rest IH]; intros i li fp procs w c w' H; cbn [spawn_loop] in H;
    [discriminate|].
  destruct (name cmd) as [n|] eqn:Hn.
  - destruct (String.eqb n "exit") eqn:He.
    + injection H as <- <-. apply String.eqb_eq in He. subst n.
      split; [reflexivity|]. split; [reflexivity|]. left. exact Hn.
    + destruct (resolve_redirects (redirects cmd)) as [si so].
      destruct (Nat.eqb i 0 && negb (open_redirect open_ok si)); [discriminate|].
      destruct (Nat.eqb i li && negb (open_redirect open_ok so)); [discriminate|].
      destruct (spawn_ok n); [|discriminate].
      apply IH in H as (H1 & H2 & H3). split; [exact H1|]. split; [exact H2|]. right. exact H3.
  - apply IH in H as (H1 & H2 & H3). split; [exact H1|]. split; [exact H2|]. right. exact H3.
Qed.

(** A pipeline of several commands stops the shell ([Exit]) only when one
    of its commands, after alias expansion, is named [exit]; it then
    returns 0 and leaves the shell state as it was: its variables, aliases
    and job table, no job being registered. *)
Theorem execute_pipeline_exit (p : Pipeline) (w w' : World) (c : Z) :
  length (commands p) <> 1 ->
  execute glob is_builtin run_builtin open_ok spawn_ok p w = (Exit, c, w') ->
  c = 0%Z /\ shell w' = shell w /\
  Exists (fun cmd => name cmd = Some "exit")
         (map (fun cmd => expand_alias cmd (aliases (shell w))) (commands p)).
Proof.
  intros Hl. unfold execute. cbn [commands negated background].
  assert (Hm : length (map (fun cmd => expand_alias cmd (aliases (shell w))) (commands p)) <> 1)
    by (rewrite length_map; exact Hl).
  destruct (map (fun cmd => expand_alias cmd (aliases (shell w))) (commands p))
    as [|c0 [|c1 cs]] eqn:Em; [| simpl in Hm; lia |].
  all: match goal with
       | |- context [spawn_loop ?o ?s ?i ?li ?cmds ?fp ?ps ?w0] =>
           destruct (spawn_loop o s i li cmds fp ps w0) as [fp1 procs w1|r code w1] eqn:Es
       end.
  all: try (destruct (register_job _ fp1 procs w1) as [job_id w2];
            destruct (if background p then (0%Z, w2) else wait_for_job job_id w2 true);
            discriminate).
  all: intros [= -> -> ->]; eapply spawn_loop_exit; exact Es.
Qed.

End Exit.

Lemma execute_pipeline_exit_witness :
  length (commands (mkPipeline [Fixtures.simple_cmd "exit" []; Fixtures.simple_cmd "cat" []]
                               false false)) <> 1 /\
  execute Fixtures.no_glob Fixtures.no_builtin Fixtures.noop_builtin Fixtures.all_open
    Fixtures.all_spawn
    (mkPipeline [Fixtures.simple_cmd "exit" []; Fixtures.simple_cmd "cat" []] false false)
    Fixtures.world0 = (Exit, 0%Z, Fixtures.world0) /\
  (0%Z = 0%Z /\ shell Fixtures.world0 = shell Fixtures.world0 /\
   Exists (fun cmd => name cmd = Some "exit")
     (map (fun cmd => expand_alias cmd (aliases (shell Fixtures.world0)))
          [Fixtures.simple_cmd "exit" []; Fixtures.simple_cmd "cat" []])).
Proof.
  assert (H1 : length (commands (mkPipeline [Fixtures.simple_cmd "exit" [];
                                             Fixtures.simple_cmd "cat" []] false false)) <> 1)
    by (simpl; lia).
  assert (H2 : execute Fixtures.no_glob Fixtures.no_builtin Fixtures.noop_builtin
                 Fixtures.all_open Fixtures.all_spawn
                 (mkPipeline [Fixtures.simple_cmd "exit" []; Fixtures.simple_cmd "cat" []]
                             false false)
                 Fixtures.world0 = (Exit, 0%Z, Fixtures.world0))
    by (vm_compute; reflexivity).
  split; [exact H1|]. split; [exact H2|].
  exact (execute_pipeline_exit Fixtures.no_glob Fixtures.no_builtin Fixtures.noop_builtin
           Fixtures.all_open Fixtures.all_spawn _ _ _ _ H1 H2).
Defined.

End PipelineExitFacts.
